(** * chain-analytics-agent: the six query handlers of [src/index.ts]

    A shallow embedding of the handlers registered in [src/index.ts]
    (overview, chain-details, top-chains, stablecoin-flows, bridge-volume,
    chain-compare) and of the three fetch helpers they call.

    Modelling conventions.
    - A JavaScript [number] is an exact rational ([Q]).  Rounding, overflow
      and the special values of IEEE doubles are outside the model; the one
      place where the handlers could manufacture such a value, a division,
      is modelled by [JS.div], which returns [None] when the divisor is
      zero.
    - A template string that renders a number with [toFixed] is represented
      by the number handed to [toFixed]; the digits are presentation.
    - [fetchedAt] (the wall clock) is left out of the outputs.
    - The provider is a queue of responses per endpoint; a [fetch] consumes
      the head of its queue, so the number of requests a handler issues is
      observable in the final state. *)

From Stdlib Require Import List String Ascii Bool Arith ZArith QArith Qround.
From Stdlib Require Import DecimalString Lia Lqa Permutation Sorted.
Import ListNotations.

Set Implicit Arguments.

(** ** JavaScript primitives used by the handlers *)

Module JS.

(** [String.prototype.toLowerCase] on the ASCII range: [A]-[Z] are sent
    to [a]-[z] and every other code unit is left alone. *)
Definition lower_char (c : ascii) : ascii :=
  let n := nat_of_ascii c in
  if (65 <=? n)%nat && (n <=? 90)%nat then ascii_of_nat (n + 32) else c.

Fixpoint toLowerCase (s : string) : string :=
  match s with
  | EmptyString => EmptyString
  | String c s' => String (lower_char c) (toLowerCase s')
  end.

(** [String.prototype.includes]: [sub] occurs in [s] at some offset. *)
Fixpoint includes (s sub : string) : bool :=
  String.prefix sub s ||
  match s with
  | EmptyString => false
  | String _ s' => includes s' sub
  end.

(** [ToIntegerOrInfinity] on a finite number: truncation toward zero. *)
Definition toInteger (q : Q) : Z :=
  if Qle_bool 0 q then Qfloor q else Qceiling q.

(** [a.slice(0, end)]: [end] is truncated to an integer, a negative one
    counts back from the end of the array, and the result is clamped to
    the array. *)
Definition slice0 {A} (end_ : Q) (l : list A) : list A :=
  let e := toInteger end_ in
  let len := Z.of_nat (List.length l) in
  let final := if (e <? 0)%Z then Z.max (len + e) 0 else Z.min e len in
  firstn (Z.to_nat final) l.

(** [a.map((x, i) => f(x, i))], with [i] counted from [start]. *)
Fixpoint mapi_from {A B} (start : nat) (f : A -> nat -> B) (l : list A) : list B :=
  match l with
  | [] => []
  | x :: l' => f x start :: mapi_from (S start) f l'
  end.

Definition mapi {A B} (f : A -> nat -> B) (l : list A) : list B :=
  mapi_from 0 f l.

(** [a.reduce((sum, x) => sum + f(x), 0)] *)
Definition sum {A} (f : A -> Q) (l : list A) : Q :=
  fold_left (fun acc x => acc + f x) l 0.

(** [a.reduce(f)] with no initial value: the first element seeds the
    accumulator, and an empty array is a [TypeError] ([None]). *)
Definition reduce1 {A} (f : A -> A -> A) (l : list A) : option A :=
  match l with
  | [] => None
  | x :: l' => Some (fold_left f l' x)
  end.

(** [a.findIndex(p)]: the first index satisfying [p], or [-1]. *)
Fixpoint findIndex {A} (p : A -> bool) (l : list A) : Z :=
  match l with
  | [] => (-1)%Z
  | x :: l' =>
      if p x then 0%Z
      else let i := findIndex p l' in
           if (i <? 0)%Z then (-1)%Z else (i + 1)%Z
  end.

(** [x > y] and [x >= y] on numbers. *)
Definition gt (x y : Q) : bool := negb (Qle_bool x y).
Definition ge (x y : Q) : bool := Qle_bool y x.

(** [x || 0] where [x] may be [undefined]: a missing or zero number is
    falsy. *)
Definition or0 (x : option Q) : Q :=
  match x with
  | Some v => if Qeq_bool v 0 then 0 else v
  | None => 0
  end.

(** [x / y]; [None] stands for the [NaN] or infinity that a zero divisor
    produces. *)
Definition div (x y : Q) : option Q :=
  if Qeq_bool y 0 then None else Some (x / y).

(** [a.sort(cmp)].  Since ECMAScript 2019 the sort is stable, so for a
    consistent comparator the result is determined: the elements in
    comparator order, equal ones in their order of arrival.  It is
    computed here by insertion from the right: [x], which came before
    everything already placed, stops in front of the first [y] with
    [cmp x y <= 0]. *)
Fixpoint insert {A} (cmp : A -> A -> Q) (x : A) (l : list A) : list A :=
  match l with
  | [] => [x]
  | y :: l' =>
      if Qle_bool (cmp x y) 0 then x :: y :: l' else y :: insert cmp x l'
  end.

Fixpoint sort {A} (cmp : A -> A -> Q) (l : list A) : list A :=
  match l with
  | [] => []
  | x :: l' => insert cmp x (sort cmp l')
  end.

End JS.

(** ** Data model (the interfaces at the top of the file) *)

Record Chain := mkChain {
  name : string;
  tvl : Q;
  tokenSymbol : option string;
  gecko_id : option string;
  chainId : option Z
}.

Record StablecoinChain := mkStablecoinChain {
  s_name : string;
  s_gecko_id : option string;
  s_tokenSymbol : option string;
  (** [totalCirculatingUSD.peggedUSD], an optional property *)
  peggedUSD : option Q
}.

Record Bridge := mkBridge {
  id : Z;
  b_name : string;
  displayName : string;
  last24hVolume : Q;
  weeklyVolume : Q;
  monthlyVolume : Q;
  chains : list string
}.

(** ** The provider and the fetch helpers *)

(** What [fetch] resolves to: the [ok] flag, the status code and the parsed
    body ([res.json()]). *)
Record Response (T : Type) := mkResponse {
  ok : bool;
  status : nat;
  json : T
}.

(** The state of the outside world: for each of the three endpoints, the
    responses it will give to successive requests.  An exhausted queue is a
    transport failure. *)
Record World := mkWorld {
  chainsFeed : list (Response (list Chain));
  stablesFeed : list (Response (list StablecoinChain));
  bridgesFeed : list (Response (list Bridge))
}.

(** How a promise settles. *)
Inductive Outcome (A : Type) :=
| Resolved (a : A)
| Rejected (e : string).
Arguments Rejected {A} e.

Inductive Endpoint := ChainsApi | StablecoinsApi | BridgesApi.

Definition api_label (e : Endpoint) : string :=
  match e with
  | ChainsApi => "Chains API error: "
  | StablecoinsApi => "Stablecoins API error: "
  | BridgesApi => "Bridges API error: "
  end.

(** [`${res.status}`] *)
Definition show_status (n : nat) : string :=
  NilZero.string_of_uint (Nat.to_uint n).

Definition transport_error : string := "TypeError: fetch failed".

(** The body shared by [fetchChains], [fetchStablecoins] and
    [fetchBridges]: one request, [throw] unless [res.ok]. *)
Definition fetch_json {T} (e : Endpoint) (feed : list (Response T))
  : Outcome T * list (Response T) :=
  match feed with
  | [] => (Rejected transport_error, [])
  | res :: rest =>
      (if ok res then Resolved (json res)
       else Rejected (api_label e ++ show_status (status res)),
       rest)
  end.

Definition fetchChains (w : World) : Outcome (list Chain) * World :=
  let (o, rest) := fetch_json ChainsApi (chainsFeed w) in
  (o, mkWorld rest (stablesFeed w) (bridgesFeed w)).

Definition fetchStablecoins (w : World) : Outcome (list StablecoinChain) * World :=
  let (o, rest) := fetch_json StablecoinsApi (stablesFeed w) in
  (o, mkWorld (chainsFeed w) rest (bridgesFeed w)).

(** The body of the bridges response is an object [{ bridges }]; the model
    keeps the array it wraps. *)
Definition fetchBridges (w : World) : Outcome (list Bridge) * World :=
  let (o, rest) := fetch_json BridgesApi (bridgesFeed w) in
  (o, mkWorld (chainsFeed w) (stablesFeed w) rest).

(** [await p] followed by the rest of an async function: a rejection of [p]
    rejects the function. *)
Definition await {A B} (p : Outcome A) (k : A -> Outcome B) : Outcome B :=
  match p with
  | Resolved a => k a
  | Rejected e => Rejected e
  end.

(** [Promise.all]: resolved with all the values once every promise has
    resolved, and otherwise rejected with the reason of the promise that
    rejected first in time.  The program does not decide in which order
    the requests settle; [settle] lists the array positions in settlement
    order (positions it leaves out settle last, in array order). *)
Definition reason {A} (p : Outcome A) : option string :=
  match p with
  | Resolved _ => None
  | Rejected e => Some e
  end.

Fixpoint first_rejection (settle : list nat) (rs : list (option string))
  : option string :=
  match settle with
  | [] => fold_right (fun r later => match r with Some e => Some e | None => later end)
                     None rs
  | i :: settle' =>
      match nth i rs None with
      | Some e => Some e
      | None => first_rejection settle' rs
      end
  end.

Definition rejection (settle : list nat) (rs : list (option string)) : string :=
  match first_rejection settle rs with
  | Some e => e
  | None => EmptyString
  end.

Definition Promise_all2 {A B} (settle : list nat) (p1 : Outcome A) (p2 : Outcome B)
  : Outcome (A * B) :=
  match p1, p2 with
  | Resolved a, Resolved b => Resolved (a, b)
  | _, _ => Rejected (rejection settle [reason p1; reason p2])
  end.

Definition Promise_all3 {A B C} (settle : list nat)
  (p1 : Outcome A) (p2 : Outcome B) (p3 : Outcome C) : Outcome (A * B * C) :=
  match p1, p2, p3 with
  | Resolved a, Resolved b, Resolved c => Resolved (a, b, c)
  | _, _, _ => Rejected (rejection settle [reason p1; reason p2; reason p3])
  end.

(** ** Shared pieces of the handlers *)

(** [(a, b) => b.key - a.key], the comparator of every [sort] in the file. *)
Definition desc {A} (key : A -> Q) : A -> A -> Q :=
  fun a b => key b - key a.

(** [x.toLowerCase() === q.toLowerCase()], the test of every lookup. *)
Definition same_name (q x : string) : bool :=
  String.eqb (JS.toLowerCase x) (JS.toLowerCase q).

(** [xs.find(x => x.name.toLowerCase() === q.toLowerCase())], the lookup
    written out in chain-details and chain-compare; [nm] reads the name. *)
Definition find_by_name {A} (nm : A -> string) (q : string) (xs : list A)
  : option A :=
  find (fun x => same_name q (nm x)) xs.

Definition billion : Q := 1000000000.
Definition million : Q := 1000000.

(** ** overview *)

Record Market := mkMarket {
  totalChains : nat;
  totalTVL : Q;       (* [totalTVL / 1e9], shown with one decimal *)
  totalTVLRaw : Q
}.

Record Top5Entry := mkTop5Entry {
  ov_rank : nat;
  ov_name : string;
  ov_tvl : Q          (* [c.tvl / 1e9], shown with two decimals *)
}.

Record OverviewOutput := mkOverviewOutput {
  market : Market;
  top5 : list Top5Entry
}.

(** The body of the handler after the fetch.  [chains.sort] sorts in place
    and returns the same array, so from that line on [chains] and [sorted]
    are one array. *)
Definition overview_output (chains : list Chain) : OverviewOutput :=
  let sorted := JS.sort (desc tvl) chains in
  let chains := sorted in
  let totalTVL := JS.sum tvl chains in
  mkOverviewOutput
    (mkMarket (List.length chains) (totalTVL / billion) totalTVL)
    (JS.mapi (fun c i => mkTop5Entry (i + 1) (name c) (tvl c / billion))
             (JS.slice0 5 sorted)).

Definition overview (w : World) : Outcome OverviewOutput * World :=
  let (p, w1) := fetchChains w in
  (await p (fun chains => Resolved (overview_output chains)), w1).

(** ** chain-details *)

Record ChainInfo := mkChainInfo {
  cd_name : string;
  cd_tvl : Q;         (* [chainData.tvl / 1e9], three decimals *)
  cd_tvlRaw : Q;
  cd_rank : Z;
  cd_totalChains : nat;
  cd_tokenSymbol : option string;
  cd_geckoId : option string;
  cd_chainId : option Z
}.

Record StableInfo := mkStableInfo {
  totalUSD : Q;       (* [(peggedUSD || 0) / 1e6], one decimal *)
  totalUSDRaw : Q
}.

Inductive DetailsOutput :=
| ChainNotFound (availableChains : list string)
    (* [{ error: 'Chain not found', availableChains }] *)
| ChainDetails (chain : ChainInfo) (stablecoins : option StableInfo).

Definition chain_details_output (chain : string)
  (chains : list Chain) (stables : list StablecoinChain) : DetailsOutput :=
  match find_by_name name chain chains with
  | None => ChainNotFound (map name (JS.slice0 20 chains))
  | Some chainData =>
      let stableData := find_by_name s_name chain stables in
      let sorted := JS.sort (desc tvl) chains in
      let chains := sorted in
      let rank :=
        (JS.findIndex (fun c => String.eqb (name c) (name chainData)) sorted + 1)%Z in
      ChainDetails
        (mkChainInfo (name chainData) (tvl chainData / billion) (tvl chainData)
                     rank (List.length chains) (tokenSymbol chainData)
                     (gecko_id chainData) (chainId chainData))
        (match stableData with
         | Some s => Some (mkStableInfo (JS.or0 (peggedUSD s) / million)
                                        (JS.or0 (peggedUSD s)))
         | None => None
         end)
  end.

Definition chain_details (settle : list nat) (chain : string) (w : World)
  : Outcome DetailsOutput * World :=
  let (p1, w1) := fetchChains w in
  let (p2, w2) := fetchStablecoins w1 in
  (await (Promise_all2 settle p1 p2)
     (fun '(chains, stables) => Resolved (chain_details_output chain chains stables)),
   w2).

(** ** top-chains *)

Inductive Category := All | L2 | L1 | AltL1.

Definition l2Names : list string :=
  ["Base"; "Arbitrum"; "OP Mainnet"; "Scroll"; "Linea"; "Blast";
   "zkSync Era"; "Polygon zkEVM"; "Mantle"; "Mode"; "Starknet"; "Taiko";
   "Manta"]%string.

Definition l1Names : list string :=
  ["Ethereum"; "BSC"; "Solana"; "Tron"; "Bitcoin"]%string.

(** [names.some(n => c.name.toLowerCase().includes(n.toLowerCase()))] *)
Definition some_included (names : list string) (c : Chain) : bool :=
  existsb (fun n => JS.includes (JS.toLowerCase (name c)) (JS.toLowerCase n)) names.

(** The [if / else if] chain on [category]. *)
Definition filter_category (category : Category) (filtered : list Chain)
  : list Chain :=
  match category with
  | L2 => filter (fun c => some_included l2Names c) filtered
  | L1 => filter (fun c => some_included l1Names c) filtered
  | AltL1 =>
      filter (fun c => negb (some_included l2Names c) &&
                       negb (some_included l1Names c)) filtered
  | All => filtered
  end.

Record TopEntry := mkTopEntry {
  tc_rank : nat;
  tc_name : string;
  tc_tvl : Q;         (* [c.tvl / 1e9], three decimals *)
  tc_tvlRaw : Q;
  tc_tokenSymbol : option string
}.

Record TopChainsOutput := mkTopChainsOutput {
  tc_filters : Q * Q * Category;
  tc_count : nat;
  tc_totalTVL : Q;    (* [totalTVL / 1e9], two decimals *)
  tc_chains : list TopEntry
}.

(** The chains the handler keeps: [minTvl] filter, category filter, sort,
    slice. *)
Definition top_chains_sorted (limit minTvl : Q) (category : Category)
  (chains : list Chain) : list Chain :=
  let filtered := filter (fun c => JS.ge (tvl c) minTvl) chains in
  let filtered := filter_category category filtered in
  JS.slice0 limit (JS.sort (desc tvl) filtered).

Definition top_chains_output (limit minTvl : Q) (category : Category)
  (chains : list Chain) : TopChainsOutput :=
  let sorted := top_chains_sorted limit minTvl category chains in
  let totalTVL := JS.sum tvl sorted in
  mkTopChainsOutput (limit, minTvl, category)
    (List.length sorted)
    (totalTVL / billion)
    (JS.mapi (fun c i => mkTopEntry (i + 1) (name c) (tvl c / billion) (tvl c)
                                    (tokenSymbol c))
             sorted).

Definition top_chains (limit minTvl : Q) (category : Category) (w : World)
  : Outcome TopChainsOutput * World :=
  let (p, w1) := fetchChains w in
  (await p (fun chains => Resolved (top_chains_output limit minTvl category chains)),
   w1).

(** ** stablecoin-flows *)

(** The objects built by the [map] in the [withUSD] pipeline. *)
Record WithUSD := mkWithUSD {
  wu_name : string;
  stablecoinsUSD : Q;
  wu_tokenSymbol : option string
}.

(** [x / total * 100], the number behind a [share] string. *)
Definition share_of (x total : Q) : option Q :=
  match JS.div x total with
  | Some r => Some (r * 100)
  | None => None
  end.

Record DistributionEntry := mkDistributionEntry {
  sf_rank : nat;
  sf_chain : string;
  sf_stablecoins : Q;       (* [s.stablecoinsUSD / 1e9], three decimals *)
  sf_stablecoinsRaw : Q;
  sf_share : option Q       (* one decimal and a percent sign *)
}.

Record StablecoinFlowsOutput := mkStablecoinFlowsOutput {
  totalStablecoins : Q;     (* [totalStables / 1e9], two decimals *)
  chainCount : nat;
  distribution : list DistributionEntry
}.

(** [s.totalCirculatingUSD.peggedUSD && s.totalCirculatingUSD.peggedUSD > 0] *)
Definition has_positive_supply (s : StablecoinChain) : bool :=
  match peggedUSD s with
  | Some v => negb (Qeq_bool v 0) && JS.gt v 0
  | None => false
  end.

(** [peggedUSD!] is read only on records that passed the filter above; a
    missing value, which cannot reach this point, is read as [0]. *)
Definition to_withUSD (s : StablecoinChain) : WithUSD :=
  mkWithUSD (s_name s)
            (match peggedUSD s with Some v => v | None => 0 end)
            (s_tokenSymbol s).

Definition withUSD (limit : Q) (stables : list StablecoinChain) : list WithUSD :=
  JS.slice0 limit
    (JS.sort (desc stablecoinsUSD)
       (map to_withUSD (filter has_positive_supply stables))).

Definition stablecoin_flows_output (limit : Q) (stables : list StablecoinChain)
  : StablecoinFlowsOutput :=
  let withUSD := withUSD limit stables in
  let totalStables := JS.sum stablecoinsUSD withUSD in
  mkStablecoinFlowsOutput (totalStables / billion) (List.length withUSD)
    (JS.mapi (fun s i =>
                mkDistributionEntry (i + 1) (wu_name s)
                  (stablecoinsUSD s / billion) (stablecoinsUSD s)
                  (share_of (stablecoinsUSD s) totalStables))
             withUSD).

Definition stablecoin_flows (limit : Q) (w : World)
  : Outcome StablecoinFlowsOutput * World :=
  let (p, w1) := fetchStablecoins w in
  (await p (fun stables => Resolved (stablecoin_flows_output limit stables)), w1).

(** ** bridge-volume *)

Inductive Period := P24h | P7d | P30d.

(** [b[volumeKey]] for the [volumeKey] chosen from [period]. *)
Definition volumeKey (period : Period) : Bridge -> Q :=
  match period with
  | P24h => last24hVolume
  | P7d => weeklyVolume
  | P30d => monthlyVolume
  end.

Record BridgeEntry := mkBridgeEntry {
  bv_rank : nat;
  bv_name : string;
  bv_volume : Q;            (* [b[volumeKey] / 1e6], one decimal *)
  bv_volumeRaw : Q;
  bv_share : option Q;      (* one decimal and a percent sign *)
  bv_supportedChains : nat;
  bv_chains : list string
}.

Record BridgeVolumeOutput := mkBridgeVolumeOutput {
  bv_period : Period;
  totalVolume : Q;          (* [totalVolume / 1e9], two decimals *)
  bridgeCount : nat;
  bv_bridges : list BridgeEntry
}.

Definition bridges_sorted (limit : Q) (period : Period) (bridges : list Bridge)
  : list Bridge :=
  JS.slice0 limit
    (JS.sort (desc (volumeKey period))
       (filter (fun b => JS.gt (volumeKey period b) 0) bridges)).

Definition bridge_volume_output (limit : Q) (period : Period)
  (bridges : list Bridge) : BridgeVolumeOutput :=
  let sorted := bridges_sorted limit period bridges in
  let total := JS.sum (volumeKey period) sorted in
  mkBridgeVolumeOutput period (total / billion) (List.length sorted)
    (JS.mapi (fun b i =>
                mkBridgeEntry (i + 1) (displayName b)
                  (volumeKey period b / million) (volumeKey period b)
                  (share_of (volumeKey period b) total)
                  (List.length (chains b)) (JS.slice0 5 (chains b)))
             sorted).

Definition bridge_volume (limit : Q) (period : Period) (w : World)
  : Outcome BridgeVolumeOutput * World :=
  let (p, w1) := fetchBridges w in
  (await p (fun bridges => Resolved (bridge_volume_output limit period bridges)),
   w1).

(** ** chain-compare *)

Record Compared := mkCompared {
  cc_name : string;
  cc_found : bool;
  cc_tvl : option Q;                     (* [chain.tvl / 1e9] or [null] *)
  cc_tvlRaw : Q;
  cc_rank : option Z;
  cc_tokenSymbol : option (option string);  (* outer [None]: [undefined] *)
  cc_stablecoins : option Q;             (* [peggedUSD / 1e6] or [null] *)
  cc_stablecoinsRaw : Q;
  cc_bridgesSupported : nat
}.

Record Winners := mkWinners {
  highestTVL : string;
  mostStablecoins : string
}.

Record CompareOutput := mkCompareOutput {
  chainsCompared : nat;
  comparison : list Compared;
  winners : Winners
}.

(** The callback of [chainNames.map].  [allChains] is the array after
    [allChains.sort(...)], which is also what [sorted] names. *)
Definition compare_one (allChains sorted : list Chain)
  (stables : list StablecoinChain) (bridges : list Bridge) (name0 : string)
  : Compared :=
  let chain := find_by_name name name0 allChains in
  let stable := find_by_name s_name name0 stables in
  let rank :=
    match chain with
    | Some ch =>
        Some (JS.findIndex (fun c => String.eqb (name c) (name ch)) sorted + 1)%Z
    | None => None
    end in
  let bridgeCount :=
    List.length
      (filter (fun b => existsb (fun c => same_name name0 c) (chains b)) bridges) in
  let pegged := match stable with Some s => peggedUSD s | None => None end in
  mkCompared
    (match chain with
     | Some ch => if String.eqb (name ch) EmptyString then name0 else name ch
     | None => name0
     end)
    (match chain with Some _ => true | None => false end)
    (match chain with Some ch => Some (tvl ch / billion) | None => None end)
    (JS.or0 (option_map tvl chain))
    rank
    (option_map tokenSymbol chain)
    (match pegged with
     | Some v => if Qeq_bool v 0 then None else Some (v / million)
     | None => None
     end)
    (JS.or0 pegged)
    bridgeCount.

(** [(a, b) => a.key > b.key ? a : b], the callback of the two [reduce]
    calls that pick the winners. *)
Definition greater {A} (key : A -> Q) (a b : A) : A :=
  if JS.gt (key a) (key b) then a else b.

Definition empty_reduce : string :=
  "TypeError: Reduce of empty array with no initial value".

Definition chain_compare_output (chainNames : list string)
  (allChains : list Chain) (stables : list StablecoinChain)
  (bridges : list Bridge) : Outcome CompareOutput :=
  let sorted := JS.sort (desc tvl) allChains in
  let allChains := sorted in
  let comparison := map (compare_one allChains sorted stables bridges) chainNames in
  match JS.reduce1 (greater cc_tvlRaw) comparison,
        JS.reduce1 (greater cc_stablecoinsRaw) comparison with
  | Some tvlWinner, Some stableWinner =>
      Resolved (mkCompareOutput (List.length chainNames) comparison
                  (mkWinners (cc_name tvlWinner) (cc_name stableWinner)))
  | _, _ => Rejected empty_reduce
  end.

Definition chain_compare (settle : list nat) (chainNames : list string)
  (w : World) : Outcome CompareOutput * World :=
  let (p1, w1) := fetchChains w in
  let (p2, w2) := fetchStablecoins w1 in
  let (p3, w3) := fetchBridges w2 in
  (await (Promise_all3 settle p1 p2 p3)
     (fun '(allChains, stables, bridges) =>
        chain_compare_output chainNames allChains stables bridges),
   w3).

(** ** The entrypoints

    [addEntrypoint] registers the six handlers under their keys; a query
    names one of them and carries its validated input. *)

Inductive Query :=
| overview_q
| chain_details_q (chain : string)
| top_chains_q (limit minTvl : Q) (category : Category)
| stablecoin_flows_q (limit : Q)
| bridge_volume_q (limit : Q) (period : Period)
| chain_compare_q (chainNames : list string).

Inductive Output :=
| overview_out (o : OverviewOutput)
| chain_details_out (o : DetailsOutput)
| top_chains_out (o : TopChainsOutput)
| stablecoin_flows_out (o : StablecoinFlowsOutput)
| bridge_volume_out (o : BridgeVolumeOutput)
| chain_compare_out (o : CompareOutput).

Definition wrap {A} (tag : A -> Output) (r : Outcome A * World)
  : Outcome Output * World :=
  (await (fst r) (fun a => Resolved (tag a)), snd r).

Definition handle (settle : list nat) (q : Query) (w : World)
  : Outcome Output * World :=
  match q with
  | overview_q => wrap overview_out (overview w)
  | chain_details_q chain => wrap chain_details_out (chain_details settle chain w)
  | top_chains_q limit minTvl category =>
      wrap top_chains_out (top_chains limit minTvl category w)
  | stablecoin_flows_q limit => wrap stablecoin_flows_out (stablecoin_flows limit w)
  | bridge_volume_q limit period =>
      wrap bridge_volume_out (bridge_volume limit period w)
  | chain_compare_q chainNames =>
      wrap chain_compare_out (chain_compare settle chainNames w)
  end.

(** ** Vocabulary of the failure properties *)

(** The endpoints whose fetch helper a handler calls. *)
Definition required (q : Query) : list Endpoint :=
  match q with
  | overview_q => [ChainsApi]
  | chain_details_q _ => [ChainsApi; StablecoinsApi]
  | top_chains_q _ _ _ => [ChainsApi]
  | stablecoin_flows_q _ => [StablecoinsApi]
  | bridge_volume_q _ _ => [BridgesApi]
  | chain_compare_q _ => [ChainsApi; StablecoinsApi; BridgesApi]
  end.

(** The next request to a feed fails: no response at all, or one whose
    status is not a success. *)
Definition feed_fails {T} (feed : list (Response T)) : bool :=
  match feed with
  | [] => true
  | res :: _ => negb (ok res)
  end.

(** The error that request raises. *)
Definition feed_error {T} (e : Endpoint) (feed : list (Response T)) : string :=
  match feed with
  | [] => transport_error
  | res :: _ => api_label e ++ show_status (status res)
  end.

Definition fails (e : Endpoint) (w : World) : bool :=
  match e with
  | ChainsApi => feed_fails (chainsFeed w)
  | StablecoinsApi => feed_fails (stablesFeed w)
  | BridgesApi => feed_fails (bridgesFeed w)
  end.

Definition fetch_error (e : Endpoint) (w : World) : string :=
  match e with
  | ChainsApi => feed_error e (chainsFeed w)
  | StablecoinsApi => feed_error e (stablesFeed w)
  | BridgesApi => feed_error e (bridgesFeed w)
  end.

Definition uses (q : Query) (e : Endpoint) : bool :=
  existsb (fun e' => match e, e' with
                     | ChainsApi, ChainsApi
                     | StablecoinsApi, StablecoinsApi
                     | BridgesApi, BridgesApi => true
                     | _, _ => false
                     end) (required q).

(** The world after exactly one request to each required endpoint. *)
Definition one_request_each (q : Query) (w : World) : World :=
  mkWorld (if uses q ChainsApi then tl (chainsFeed w) else chainsFeed w)
          (if uses q StablecoinsApi then tl (stablesFeed w) else stablesFeed w)
          (if uses q BridgesApi then tl (bridgesFeed w) else bridgesFeed w).

(** ** Concrete data used by the examples *)

Definition chain_of (n : string) (v : Q) : Chain := mkChain n v None None None.

Definition stable_of (n : string) (v : option Q) : StablecoinChain :=
  mkStablecoinChain n None None v.

Definition bridge_of (n : string) (d w m : Q) (cs : list string) : Bridge :=
  mkBridge 0 n n d w m cs.

Definition ok_response {T} (body : T) : Response T := mkResponse true 200 body.

Definition world_of (cs : list Chain) (ss : list StablecoinChain)
  (bs : list Bridge) : World :=
  mkWorld [ok_response cs] [ok_response ss] [ok_response bs].

(** ** Vocabulary of the ranking properties *)

(** Later elements never have a larger key. *)
Definition descending {A} (key : A -> Q) (l : list A) : Prop :=
  StronglySorted (fun a b => key b <= key a) l.

(** The elements with key [v], in list order. *)
Definition with_key {A} (key : A -> Q) (v : Q) (l : list A) : list A :=
  filter (fun x => Qeq_bool (key x) v) l.

(** What a listing handler promises of the entries [out] it builds from a
    collection [input]: each entry is made from one input element, whose
    [key] and [label] it shows as [raw] and [elabel]. *)
Definition ranked {A E} (key : A -> Q) (label : A -> string)
  (rank : E -> nat) (raw : E -> Q) (elabel : E -> string)
  (input : list A) (out : list E) : Prop :=
  (* ranks are 1, 2, ..., n *)
  map rank out = seq 1 (List.length out) /\
  (* the field never increases down the list *)
  StronglySorted (fun x y => y <= x) (map raw out) /\
  (* the entries of any one value are, in order, the first input elements
     of that value *)
  (forall v, exists rest,
      map label (with_key key v input) = map elabel (with_key raw v out) ++ rest).

(** ** Vocabulary of the category properties *)

(** The lowercased name of [c] contains the lowercased form of one of
    [names] as a contiguous substring. *)
Definition contains_any (names : list string) (c : Chain) : Prop :=
  exists n pre post,
    In n names /\
    JS.toLowerCase (name c) = (pre ++ JS.toLowerCase n ++ post)%string.

(** ** Vocabulary of the selection properties *)

(** The entries [out] show the largest elements of [input]: they are made
    from a part [kept] of the input, and nothing left out has a larger key
    than anything shown. *)
Definition keeps_largest {A E} (key : A -> Q) (raw : E -> Q)
  (input : list A) (out : list E) : Prop :=
  exists kept dropped,
    Permutation input (kept ++ dropped) /\
    map raw out = map key kept /\
    forall e d, In e out -> In d dropped -> key d <= raw e.

(** What the category of a query asks of a chain. *)
Definition in_category (category : Category) (c : Chain) : Prop :=
  match category with
  | All => True
  | L2 => contains_any l2Names c
  | L1 => contains_any l1Names c
  | AltL1 => ~ contains_any l2Names c /\ ~ contains_any l1Names c
  end.

(** ** Vocabulary of the success properties *)

(** The body of the next response of a feed. *)
Definition first_body {T} (feed : list (Response (list T))) : list T :=
  match feed with
  | res :: _ => json res
  | [] => []
  end.

(** What a handler computes from the collections once they are fetched. *)
Definition answer (q : Query) (chains : list Chain)
  (stables : list StablecoinChain) (bridges : list Bridge) : Outcome Output :=
  match q with
  | overview_q => Resolved (overview_out (overview_output chains))
  | chain_details_q chain =>
      Resolved (chain_details_out (chain_details_output chain chains stables))
  | top_chains_q limit minTvl category =>
      Resolved (top_chains_out (top_chains_output limit minTvl category chains))
  | stablecoin_flows_q limit =>
      Resolved (stablecoin_flows_out (stablecoin_flows_output limit stables))
  | bridge_volume_q limit period =>
      Resolved (bridge_volume_out (bridge_volume_output limit period bridges))
  | chain_compare_q chainNames =>
      await (chain_compare_output chainNames chains stables bridges)
            (fun o => Resolved (chain_compare_out o))
  end.

(** Two entries of a comparison that agree on everything but, possibly,
    the name they show. *)
Definition same_figures (e1 e2 : Compared) : Prop :=
  cc_found e1 = cc_found e2 /\ cc_tvl e1 = cc_tvl e2 /\
  cc_tvlRaw e1 = cc_tvlRaw e2 /\ cc_rank e1 = cc_rank e2 /\
  cc_tokenSymbol e1 = cc_tokenSymbol e2 /\
  cc_stablecoins e1 = cc_stablecoins e2 /\
  cc_stablecoinsRaw e1 = cc_stablecoinsRaw e2 /\
  cc_bridgesSupported e1 = cc_bridgesSupported e2.

(** * Properties *)

(** ** Numbers *)

Lemma gt_true (x y : Q) : JS.gt x y = true <-> y < x.
Proof.
  unfold JS.gt. rewrite negb_true_iff.
  destruct (Qle_bool x y) eqn:E.
  - apply Qle_bool_iff in E. split; [discriminate | intro; exfalso; lra].
  - split; [intros _ | reflexivity].
    apply Qnot_le_lt. intro H. apply Qle_bool_iff in H. congruence.
Qed.

Lemma gt_false (x y : Q) : JS.gt x y = false <-> x <= y.
Proof.
  unfold JS.gt. rewrite negb_false_iff. apply Qle_bool_iff.
Qed.

Lemma desc_le {A} (key : A -> Q) (x y : A) :
  Qle_bool (desc key x y) 0 = true <-> key y <= key x.
Proof.
  unfold desc. rewrite Qle_bool_iff. split; intro; lra.
Qed.

Lemma desc_gt {A} (key : A -> Q) (x y : A) :
  Qle_bool (desc key x y) 0 = false <-> key x < key y.
Proof.
  destruct (Qle_bool (desc key x y) 0) eqn:E.
  - apply desc_le in E. split; [discriminate | intro; exfalso; lra].
  - split; [intros _ | reflexivity].
    apply Qnot_le_lt. intro H. apply desc_le in H. congruence.
Qed.

(** ** Lists *)


Lemma firstn_In {A} (n : nat) (l : list A) (x : A) :
  In x (firstn n l) -> In x l.
Proof.
  intro H. rewrite <- (firstn_skipn n l). apply in_or_app. left. exact H.
Qed.

Lemma firstn_Forall {A} (P : A -> Prop) (n : nat) (l : list A) :
  Forall P l -> Forall P (firstn n l).
Proof.
  rewrite !Forall_forall. intros H x Hx. eapply H, firstn_In, Hx.
Qed.

Lemma firstn_filter_prefix {A} (p : A -> bool) (n : nat) (l : list A) :
  filter p l = filter p (firstn n l) ++ filter p (skipn n l).
Proof.
  rewrite <- filter_app, firstn_skipn. reflexivity.
Qed.

(** ** [sort]: a permutation, in comparator order, stable *)

Section Sorting.
Context {A : Type}.
Variable cmp : A -> A -> Q.

Lemma insert_perm (x : A) (l : list A) :
  Permutation (JS.insert cmp x l) (x :: l).
Proof.
  induction l as [| y l IH]; simpl.
  - apply Permutation_refl.
  - destruct (Qle_bool (cmp x y) 0).
    + apply Permutation_refl.
    + eapply perm_trans; [apply perm_skip, IH | apply perm_swap].
Qed.

Lemma sort_perm (l : list A) : Permutation (JS.sort cmp l) l.
Proof.
  induction l as [| x l IH]; simpl.
  - apply perm_nil.
  - eapply perm_trans; [apply insert_perm | apply perm_skip, IH].
Qed.

Lemma sort_length (l : list A) : List.length (JS.sort cmp l) = List.length l.
Proof. apply Permutation_length, sort_perm. Qed.

Lemma sort_In (l : list A) (x : A) : In x (JS.sort cmp l) <-> In x l.
Proof.
  split; apply Permutation_in;
    [apply sort_perm | apply Permutation_sym, sort_perm].
Qed.

Lemma sort_Forall (P : A -> Prop) (l : list A) :
  Forall P (JS.sort cmp l) <-> Forall P l.
Proof.
  rewrite !Forall_forall. split; intros H x Hx; apply H, sort_In, Hx.
Qed.

(** Only the sign test of the comparator is consulted. *)
Lemma sort_ext (cmp' : A -> A -> Q) (l : list A) :
  (forall x y, Qle_bool (cmp x y) 0 = Qle_bool (cmp' x y) 0) ->
  JS.sort cmp l = JS.sort cmp' l.
Proof.
  intro H. induction l as [| x l IH]; simpl; [reflexivity |].
  rewrite IH. generalize (JS.sort cmp' l). intro s.
  induction s as [| y s IHs]; simpl; [reflexivity |].
  rewrite H, IHs. reflexivity.
Qed.
End Sorting.

Section Descending.
Context {A : Type}.
Variable key : A -> Q.

Lemma insert_descending (x : A) (l : list A) :
  descending key l -> descending key (JS.insert (desc key) x l).
Proof.
  unfold descending. induction l as [| y l IH]; simpl; intro H.
  - constructor; constructor.
  - inversion H as [| ? ? Hl Hy]; subst.
    destruct (Qle_bool (desc key x y) 0) eqn:E.
    + apply desc_le in E. constructor; [exact H |].
      constructor; [exact E |].
      eapply Forall_impl; [| exact Hy]. intros b Hb. cbv beta in Hb. lra.
    + apply desc_gt in E. constructor; [apply IH, Hl |].
      eapply Permutation_Forall;
        [apply Permutation_sym, insert_perm |].
      constructor; [lra | exact Hy].
Qed.

Lemma sort_descending (l : list A) : descending key (JS.sort (desc key) l).
Proof.
  induction l as [| x l IH]; simpl.
  - constructor.
  - apply insert_descending, IH.
Qed.

Lemma insert_with_key (v : Q) (x : A) (l : list A) :
  with_key key v (JS.insert (desc key) x l) = with_key key v (x :: l).
Proof.
  unfold with_key. induction l as [| y l IH]; [reflexivity |].
  simpl JS.insert. destruct (Qle_bool (desc key x y) 0) eqn:E; [reflexivity |].
  apply desc_gt in E. cbn [filter] in *. rewrite IH.
  destruct (Qeq_bool (key x) v) eqn:Ex, (Qeq_bool (key y) v) eqn:Ey;
    try reflexivity.
  apply Qeq_bool_eq in Ex, Ey. lra.
Qed.

(** Stability: among the elements of any one key, the sort keeps the
    order of the input. *)
Lemma sort_with_key (v : Q) (l : list A) :
  with_key key v (JS.sort (desc key) l) = with_key key v l.
Proof.
  induction l as [| x l IH]; [reflexivity |].
  simpl JS.sort. rewrite insert_with_key.
  unfold with_key in *. simpl. rewrite IH. reflexivity.
Qed.

Lemma firstn_descending (n : nat) (l : list A) :
  descending key l -> descending key (firstn n l).
Proof.
  unfold descending. revert n. induction l as [| x l IH]; intros [| n] H;
    simpl; try constructor.
  - inversion H; subst. apply IH. assumption.
  - inversion H as [| ? ? _ Hx]; subst.
    rewrite Forall_forall in *. intros b Hb.
    apply Hx. eapply firstn_In, Hb.
Qed.
End Descending.

(** ** [slice], [map] with an index, sums *)

Lemma slice0_firstn {A} (q : Q) (l : list A) :
  exists n, JS.slice0 q l = firstn n l.
Proof. unfold JS.slice0. eexists. reflexivity. Qed.

(** For a non-negative bound the slice is the first [floor q] elements. *)
Lemma slice0_nonneg {A} (q : Q) (l : list A) :
  0 <= q -> JS.slice0 q l = firstn (Z.to_nat (Qfloor q)) l.
Proof.
  intro Hq. unfold JS.slice0, JS.toInteger.
  assert (E : Qle_bool 0 q = true) by (apply Qle_bool_iff; exact Hq).
  rewrite E.
  assert (H0 : (0 <= Qfloor q)%Z).
  { change 0%Z with (Qfloor 0). apply Qfloor_resp_le. exact Hq. }
  destruct (Qfloor q <? 0)%Z eqn:Hneg; [apply Z.ltb_lt in Hneg; lia |].
  destruct (Z.le_ge_cases (Qfloor q) (Z.of_nat (List.length l))) as [Hle | Hge].
  - rewrite Z.min_l by exact Hle. reflexivity.
  - rewrite Z.min_r by exact Hge. rewrite Nat2Z.id.
    rewrite !firstn_all2; [reflexivity | lia | lia].
Qed.

Lemma slice0_In {A} (q : Q) (l : list A) (x : A) :
  In x (JS.slice0 q l) -> In x l.
Proof. destruct (slice0_firstn q l) as [n ->]. apply firstn_In. Qed.

Lemma slice0_Forall {A} (P : A -> Prop) (q : Q) (l : list A) :
  Forall P l -> Forall P (JS.slice0 q l).
Proof. destruct (slice0_firstn q l) as [n ->]. apply firstn_Forall. Qed.

Section Mapi.
Context {A B : Type}.
Variable f : A -> nat -> B.

Lemma mapi_from_length (s : nat) (l : list A) :
  List.length (JS.mapi_from s f l) = List.length l.
Proof.
  revert s. induction l as [| x l IH]; intro s; simpl; [| rewrite IH];
    reflexivity.
Qed.

(** A field that copies a field of the source element. *)
Lemma map_mapi_from {C} (g : B -> C) (h : A -> C) (s : nat) (l : list A) :
  (forall x i, g (f x i) = h x) ->
  map g (JS.mapi_from s f l) = map h l.
Proof.
  intro H. revert s. induction l as [| x l IH]; intro s; simpl;
    [| rewrite H, IH]; reflexivity.
Qed.

(** A field that holds the index plus one. *)
Lemma rank_mapi_from (g : B -> nat) (s : nat) (l : list A) :
  (forall x i, g (f x i) = (i + 1)%nat) ->
  map g (JS.mapi_from s f l) = seq (s + 1) (List.length l).
Proof.
  intro H. revert s. induction l as [| x l IH]; intro s; simpl;
    [reflexivity |].
  rewrite H, IH. reflexivity.
Qed.

Lemma filter_mapi_from {C} (p' : B -> bool) (p : A -> bool)
  (g : B -> C) (h : A -> C) (s : nat) (l : list A) :
  (forall x i, p' (f x i) = p x) ->
  (forall x i, g (f x i) = h x) ->
  map g (filter p' (JS.mapi_from s f l)) = map h (filter p l).
Proof.
  intros Hp Hg. revert s. induction l as [| x l IH]; intro s; simpl;
    [reflexivity |].
  rewrite Hp. destruct (p x); simpl; [rewrite Hg |]; rewrite IH; reflexivity.
Qed.

Lemma mapi_from_In (s : nat) (l : list A) (e : B) :
  In e (JS.mapi_from s f l) -> exists x i, In x l /\ e = f x i.
Proof.
  revert s. induction l as [| x l IH]; intros s H; simpl in H; [contradiction |].
  destruct H as [<- | H].
  - exists x, s. split; [left |]; reflexivity.
  - destruct (IH _ H) as (y & i & Hy & ->). exists y, i.
    split; [right; exact Hy | reflexivity].
Qed.
End Mapi.

Section Sums.
Context {A : Type}.
Variable f : A -> Q.

Lemma sum_from (a : Q) (l : list A) :
  fold_left (fun acc x => acc + f x) l a == a + JS.sum f l.
Proof.
  unfold JS.sum. revert a. induction l as [| x l IH]; intro a; simpl.
  - lra.
  - rewrite (IH (a + f x)), (IH (0 + f x)). lra.
Qed.

Lemma sum_cons (x : A) (l : list A) : JS.sum f (x :: l) == f x + JS.sum f l.
Proof.
  unfold JS.sum at 1. simpl. rewrite sum_from. lra.
Qed.

Lemma sum_app (l1 l2 : list A) :
  JS.sum f (l1 ++ l2) == JS.sum f l1 + JS.sum f l2.
Proof.
  induction l1 as [| x l1 IH]; simpl.
  - unfold JS.sum at 2. simpl. lra.
  - rewrite !sum_cons, IH. lra.
Qed.

Lemma sum_nonneg (l : list A) :
  Forall (fun x => 0 < f x) l -> 0 <= JS.sum f l.
Proof.
  induction 1 as [| x l Hx _ IH].
  - unfold JS.sum. simpl. lra.
  - rewrite sum_cons. lra.
Qed.

End Sums.




(** ** Ranked lists *)

Lemma descending_map {A} (key : A -> Q) (l : list A) :
  descending key l -> StronglySorted (fun x y => y <= x) (map key l).
Proof.
  induction 1 as [| x l _ IH Hx]; simpl; constructor; [exact IH |].
  rewrite Forall_forall in *. intros y Hy.
  apply in_map_iff in Hy. destruct Hy as (b & <- & Hb). apply Hx, Hb.
Qed.

Section Ranked.
Context {A E : Type}.
Variables (key : A -> Q) (label : A -> string).
Variables (entry : A -> nat -> E).
Variables (rank : E -> nat) (raw : E -> Q) (elabel : E -> string).
Hypothesis rank_entry : forall a i, rank (entry a i) = (i + 1)%nat.
Hypothesis raw_entry : forall a i, raw (entry a i) = key a.
Hypothesis label_entry : forall a i, elabel (entry a i) = label a.

Lemma ranked_view (q : Q) (input : list A) :
  ranked key label rank raw elabel input
    (JS.mapi entry (JS.slice0 q (JS.sort (desc key) input))).
Proof.
  destruct (slice0_firstn q (JS.sort (desc key) input)) as [n ->].
  unfold ranked, JS.mapi. repeat split.
  - rewrite mapi_from_length. apply (rank_mapi_from entry rank 0), rank_entry.
  - rewrite (map_mapi_from entry raw key) by exact raw_entry.
    apply descending_map, firstn_descending, sort_descending.
  - intro v. exists (map label (with_key key v (skipn n (JS.sort (desc key) input)))).
    unfold with_key at 2.
    rewrite (filter_mapi_from entry (fun e => Qeq_bool (raw e) v)
               (fun x => Qeq_bool (key x) v) elabel label);
      [| intros; rewrite raw_entry; reflexivity | exact label_entry].
    rewrite <- map_app. f_equal.
    rewrite <- (sort_with_key key v input). apply firstn_filter_prefix.
Qed.
End Ranked.

Lemma desc_scaled {A} (key : A -> Q) (x y : A) :
  Qle_bool (desc key x y) 0 = Qle_bool (desc (fun a => key a / billion) x y) 0.
Proof.
  apply eq_true_iff_eq. rewrite !desc_le. unfold Qdiv.
  symmetry. apply Qmult_le_r. reflexivity.
Qed.

(** Selecting by value commutes with the [map] that builds the [withUSD]
    objects. *)
Lemma with_key_withUSD (v : Q) (l : list StablecoinChain) :
  map wu_name (with_key stablecoinsUSD v (map to_withUSD l)) =
  map s_name (with_key (fun s => stablecoinsUSD (to_withUSD s)) v l).
Proof.
  unfold with_key. induction l as [| s l IH]; simpl; [reflexivity |].
  destruct (Qeq_bool _ v); simpl; rewrite IH; reflexivity.
Qed.

(** C4.  In each of the four listing handlers (overview, top-chains,
    stablecoin-flows, bridge-volume) the entries carry the ranks 1, 2, ...,
    n, the ranked field never increases down the list, and the entries that
    share a value appear in the order the ranked collection had them (they
    are the first input elements of that value, in input order). *)
Theorem ranking_is_contiguous_descending_stable :
  (forall chains,
      ranked (fun c => tvl c / billion) name ov_rank ov_tvl ov_name
        chains (top5 (overview_output chains))) /\
  (forall limit minTvl category chains,
      ranked tvl name tc_rank tc_tvlRaw tc_name
        (filter_category category (filter (fun c => JS.ge (tvl c) minTvl) chains))
        (tc_chains (top_chains_output limit minTvl category chains))) /\
  (forall limit stables,
      ranked (fun s => stablecoinsUSD (to_withUSD s)) s_name
        sf_rank sf_stablecoinsRaw sf_chain
        (filter has_positive_supply stables)
        (distribution (stablecoin_flows_output limit stables))) /\
  (forall limit period bridges,
      ranked (volumeKey period) displayName bv_rank bv_volumeRaw bv_name
        (filter (fun b => JS.gt (volumeKey period b) 0) bridges)
        (bv_bridges (bridge_volume_output limit period bridges))).
Proof.
  split; [| split; [| split]].
  - intro chains. unfold overview_output. cbn [top5].
    rewrite (sort_ext (desc tvl) (desc (fun c => tvl c / billion)))
      by apply desc_scaled.
    apply (ranked_view (fun c : Chain => tvl c / billion) name
             (fun c i => mkTop5Entry (i + 1) (name c) (tvl c / billion)));
      reflexivity.
  - intros limit minTvl category chains.
    unfold top_chains_output, top_chains_sorted. cbn [tc_chains].
    apply (ranked_view tvl name
             (fun c i => mkTopEntry (i + 1) (name c) (tvl c / billion) (tvl c)
                                    (tokenSymbol c)));
      reflexivity.
  - intros limit stables.
    unfold stablecoin_flows_output, withUSD. cbn [distribution].
    set (input := map to_withUSD (filter has_positive_supply stables)).
    set (kept := JS.slice0 limit (JS.sort (desc stablecoinsUSD) input)).
    destruct (ranked_view stablecoinsUSD wu_name
                (fun s i =>
                   mkDistributionEntry (i + 1) (wu_name s)
                     (stablecoinsUSD s / billion) (stablecoinsUSD s)
                     (share_of (stablecoinsUSD s) (JS.sum stablecoinsUSD kept)))
                sf_rank sf_stablecoinsRaw sf_chain
                (fun _ _ => eq_refl) (fun _ _ => eq_refl) (fun _ _ => eq_refl)
                limit input) as (Hrank & Hsorted & Hstable).
    fold kept in Hrank, Hsorted, Hstable.
    repeat split; [exact Hrank | exact Hsorted |].
    intro v. destruct (Hstable v) as [rest Hv]. exists rest.
    rewrite <- Hv. unfold input. symmetry. apply with_key_withUSD.
  - intros limit period bridges.
    unfold bridge_volume_output, bridges_sorted. cbn [bv_bridges].
    set (kept := JS.slice0 limit _).
    apply (ranked_view (volumeKey period) displayName
             (fun b i =>
                mkBridgeEntry (i + 1) (displayName b)
                  (volumeKey period b / million) (volumeKey period b)
                  (share_of (volumeKey period b) (JS.sum (volumeKey period) kept))
                  (List.length (chains b)) (JS.slice0 5 (chains b))));
      reflexivity.
Qed.

(** ** Shares *)


Lemma share_of_defined (x total : Q) :
  ~ total == 0 -> share_of x total = Some (x / total * 100).
Proof.
  intro H. unfold share_of, JS.div.
  destruct (Qeq_bool total 0) eqn:E; [| reflexivity].
  apply Qeq_bool_eq in E. contradiction.
Qed.

Section Shares.
Context {A E : Type}.
Variables (key : A -> Q) (entry : A -> nat -> E).
Variables (raw : E -> Q) (share : E -> option Q).
Variable kept : list A.
Hypothesis raw_entry : forall a i, raw (entry a i) = key a.
Hypothesis share_entry :
  forall a i, share (entry a i) = share_of (key a) (JS.sum key kept).
Hypothesis positive : Forall (fun a => 0 < key a) kept.





End Shares.


Lemma bridges_sorted_positive (limit : Q) (period : Period)
  (bridges : list Bridge) :
  Forall (fun b => In b bridges /\ 0 < volumeKey period b)
         (bridges_sorted limit period bridges).
Proof.
  unfold bridges_sorted. apply slice0_Forall, sort_Forall.
  rewrite Forall_forall. intros b Hb.
  apply filter_In in Hb. destruct Hb as [Hin Hb].
  apply gt_true in Hb. split; assumption.
Qed.




(** ** Slices that keep everything, or lose something *)

Lemma slice0_all {A} (q : Q) (l : list A) :
  inject_Z (Z.of_nat (List.length l)) <= q -> JS.slice0 q l = l.
Proof.
  intro H.
  assert (Hq : 0 <= q).
  { apply Qle_trans with (inject_Z (Z.of_nat (List.length l))); [| exact H].
    change 0 with (inject_Z 0). rewrite <- Zle_Qle. lia. }
  rewrite slice0_nonneg by exact Hq.
  apply firstn_all2. apply Qfloor_resp_le in H. rewrite Qfloor_Z in H. lia.
Qed.


(** C9.  In bridge-volume every entry shown is built from a bridge of the
    feed whose volume for the period is positive, no more entries are shown
    than there are such bridges, and a bridge whose volume is not positive
    is not among the bridges kept.  For period 7d and two bridges of
    weekly volumes 100 and 0, the first one alone is shown, with rank 1 and
    a share of 100. *)
Theorem nonpositive_volume_bridges_are_dropped :
  (forall limit period bridges,
      let out := bridge_volume_output limit period bridges in
      Forall (fun e =>
                exists b,
                  In b bridges /\ 0 < volumeKey period b /\
                  bv_name e = displayName b /\
                  bv_volumeRaw e = volumeKey period b /\
                  bv_supportedChains e = List.length (chains b) /\
                  bv_chains e = JS.slice0 5 (chains b))
             (bv_bridges out) /\
      (bridgeCount out <=
       List.length (filter (fun b => JS.gt (volumeKey period b) 0) bridges))%nat /\
      (forall b, ~ 0 < volumeKey period b ->
                 ~ In b (bridges_sorted limit period bridges))) /\
  (forall limit b1 b2,
      1 <= limit -> weeklyVolume b1 == 100 -> weeklyVolume b2 == 0 ->
      exists s,
        bv_bridges (bridge_volume_output limit P7d [b1; b2]) =
          [mkBridgeEntry 1 (displayName b1) (weeklyVolume b1 / million)
             (weeklyVolume b1) (Some s) (List.length (chains b1))
             (JS.slice0 5 (chains b1))] /\
        s == 100).
Proof.
  split.
  - intros limit period bridges. cbv zeta.
    pose proof (bridges_sorted_positive limit period bridges) as Hpos.
    unfold bridge_volume_output. cbn [bv_bridges bridgeCount].
    split; [| split].
    + rewrite Forall_forall in *. intros e He.
      apply mapi_from_In in He. destruct He as (b & i & Hb & ->).
      destruct (Hpos b Hb) as [Hin Hv]. exists b. cbn. repeat split; assumption.
    + unfold bridges_sorted.
      destruct (slice0_firstn limit
                  (JS.sort (desc (volumeKey period))
                     (filter (fun b => JS.gt (volumeKey period b) 0) bridges)))
        as [n ->].
      rewrite length_firstn, sort_length. apply Nat.le_min_r.
    + intros b Hb Hin. rewrite Forall_forall in Hpos.
      apply Hb, (Hpos b Hin).
  - intros limit b1 b2 Hlimit H1 H2.
    assert (G1 : JS.gt (weeklyVolume b1) 0 = true) by (apply gt_true; lra).
    assert (G2 : JS.gt (weeklyVolume b2) 0 = false) by (apply gt_false; lra).
    unfold bridge_volume_output, bridges_sorted. cbn [bv_bridges volumeKey filter].
    rewrite G1, G2. cbn [JS.sort JS.insert].
    rewrite slice0_all by (cbn; exact Hlimit).
    cbn [JS.mapi JS.mapi_from Nat.add].
    rewrite share_of_defined by (unfold JS.sum; cbn; lra).
    eexists. split; [reflexivity |].
    unfold JS.sum. cbn. field. lra.
Qed.

Lemma nonpositive_volume_bridges_are_dropped_witness :
  exists s,
    bv_bridges
      (bridge_volume_output 10 P7d
         [bridge_of "Across" 1 100 1 ["Ethereum"; "Base"]%string;
          bridge_of "Stale" 1 0 1 ["Ethereum"]%string]) =
      [mkBridgeEntry 1 "Across" (100 / million) 100 (Some s) 2
         ["Ethereum"; "Base"]%string] /\
    s == 100.
Proof.
  apply (proj2 nonpositive_volume_bridges_are_dropped 10
           (bridge_of "Across" 1 100 1 ["Ethereum"; "Base"]%string)
           (bridge_of "Stale" 1 0 1 ["Ethereum"]%string));
    vm_compute; first [discriminate | reflexivity].
Defined.



(** ** Lookups by name *)

Lemma same_name_true (q x : string) :
  same_name q x = true <-> JS.toLowerCase x = JS.toLowerCase q.
Proof. unfold same_name. apply String.eqb_eq. Qed.

Lemma same_name_fold (q1 q2 : string) :
  JS.toLowerCase q1 = JS.toLowerCase q2 ->
  forall x, same_name q1 x = same_name q2 x.
Proof. intros H x. unfold same_name. rewrite H. reflexivity. Qed.

Lemma find_by_name_fold {A} (nm : A -> string) (q1 q2 : string) (xs : list A) :
  JS.toLowerCase q1 = JS.toLowerCase q2 ->
  find_by_name nm q1 xs = find_by_name nm q2 xs.
Proof.
  intro H. unfold find_by_name.
  induction xs as [| x xs IH]; simpl; [reflexivity |].
  rewrite (same_name_fold _ _ H), IH. reflexivity.
Qed.

Lemma find_by_name_Some {A} (nm : A -> string) (q : string) (xs : list A) (x : A) :
  find_by_name nm q xs = Some x ->
  In x xs /\ JS.toLowerCase (nm x) = JS.toLowerCase q.
Proof.
  intro H. apply find_some in H. destruct H as [Hin H].
  split; [exact Hin | apply same_name_true, H].
Qed.

Lemma find_by_name_None {A} (nm : A -> string) (q : string) (xs : list A) :
  find_by_name nm q xs = None <->
  forall x, In x xs -> JS.toLowerCase (nm x) <> JS.toLowerCase q.
Proof.
  unfold find_by_name. split.
  - intros H x Hin E. apply same_name_true in E.
    pose proof (find_none _ _ H x Hin) as F. cbv beta in F. congruence.
  - intro H. induction xs as [| y xs IH]; [reflexivity |]. simpl.
    destruct (same_name q (nm y)) eqn:E.
    + apply same_name_true in E. exfalso. apply (H y); [left; reflexivity | exact E].
    + apply IH. intros x Hx. apply H. right. exact Hx.
Qed.

(** The first match wins: nothing before the record found matches. *)
Lemma find_by_name_first {A} (nm : A -> string) (q : string) (xs : list A) (x : A) :
  find_by_name nm q xs = Some x ->
  exists pre post,
    xs = pre ++ x :: post /\
    forall y, In y pre -> JS.toLowerCase (nm y) <> JS.toLowerCase q.
Proof.
  unfold find_by_name. induction xs as [| y xs IH]; simpl; [discriminate |].
  destruct (same_name q (nm y)) eqn:E.
  - intros [= ->]. exists [], xs. split; [reflexivity | intros ? []].
  - intro H. destruct (IH H) as (pre & post & -> & Hpre).
    exists (y :: pre), post. split; [reflexivity |].
    intros z [<- | Hz]; [| apply Hpre, Hz].
    intro F. apply same_name_true in F. congruence.
Qed.

(** C8.  A lookup depends on the query only through its lower-case form:
    two queries that agree after lowercasing find the same record or both
    find none, whether among chains or stablecoin records; so "Ethereum",
    "ETHEREUM" and "ethereum" give one result on every collection, and a
    record when one is named "Ethereum".  The record found is the first
    whose lowercased name equals the lowercased query, and there is none
    exactly when no name equals it: a query with a leading space or one
    that is only a part of a name finds nothing. *)
Theorem lookup_is_case_insensitive_and_exact :
  (forall (C : list Chain) q1 q2,
      JS.toLowerCase q1 = JS.toLowerCase q2 ->
      find_by_name name q1 C = find_by_name name q2 C) /\
  (forall (S : list StablecoinChain) q1 q2,
      JS.toLowerCase q1 = JS.toLowerCase q2 ->
      find_by_name s_name q1 S = find_by_name s_name q2 S) /\
  (forall C : list Chain,
      find_by_name name "Ethereum" C = find_by_name name "ETHEREUM" C /\
      find_by_name name "ETHEREUM" C = find_by_name name "ethereum" C /\
      ((exists c, In c C /\ name c = "Ethereum"%string) ->
       exists c', find_by_name name "ETHEREUM" C = Some c' /\
                  JS.toLowerCase (name c') = "ethereum"%string)) /\
  (forall (C : list Chain) q c,
      find_by_name name q C = Some c ->
      exists pre post,
        C = pre ++ c :: post /\
        JS.toLowerCase (name c) = JS.toLowerCase q /\
        forall y, In y pre -> JS.toLowerCase (name y) <> JS.toLowerCase q) /\
  (forall (C : list Chain) q,
      find_by_name name q C = None <->
      forall c, In c C -> JS.toLowerCase (name c) <> JS.toLowerCase q) /\
  find_by_name name " Ethereum" [chain_of "Ethereum" 1] = None /\
  find_by_name name "Ether" [chain_of "Ethereum" 1] = None.
Proof.
  split; [| split; [| split; [| split; [| split; [| split]]]]].
  - intros. apply find_by_name_fold. assumption.
  - intros. apply find_by_name_fold. assumption.
  - intro C. split; [| split].
    + apply find_by_name_fold. reflexivity.
    + apply find_by_name_fold. reflexivity.
    + intros (c & Hin & Hc).
      destruct (find_by_name name "ETHEREUM" C) as [c' |] eqn:E.
      * exists c'. split; [reflexivity |].
        apply find_by_name_Some in E. destruct E as [_ E]. exact E.
      * exfalso. rewrite find_by_name_None in E.
        apply (E c Hin). rewrite Hc. reflexivity.
  - intros C q c H.
    destruct (find_by_name_first _ _ _ H) as (pre & post & HC & Hpre).
    exists pre, post. repeat split; try assumption.
    apply (find_by_name_Some _ _ _ H).
  - intros C q. apply find_by_name_None.
  - reflexivity.
  - reflexivity.
Qed.

(** ** chain-details on complete data *)

Lemma chain_details_resolved (settle : list nat) (q : string) (w : World)
  (r1 : Response (list Chain)) (rest1 : list (Response (list Chain)))
  (r2 : Response (list StablecoinChain))
  (rest2 : list (Response (list StablecoinChain))) :
  chainsFeed w = r1 :: rest1 -> ok r1 = true ->
  stablesFeed w = r2 :: rest2 -> ok r2 = true ->
  chain_details settle q w =
    (Resolved (chain_details_output q (json r1) (json r2)),
     mkWorld rest1 rest2 (bridgesFeed w)).
Proof.
  intros H1 O1 H2 O2.
  unfold chain_details, fetchChains, fetchStablecoins, fetch_json.
  rewrite H1, O1. cbn [chainsFeed stablesFeed bridgesFeed].
  rewrite H2, O2. reflexivity.
Qed.

(** C6.  When both fetches succeed, chain-details resolves.  If no chain
    name equals the query after lowercasing, the output is the not-found
    payload with the names of the first 20 chains in the order fetched.
    If a chain is found and no stablecoin record matches, the output is
    the record of the chain with [stablecoins] null. *)
Theorem chain_details_misses_are_results :
  forall settle q w r1 rest1 r2 rest2,
    chainsFeed w = r1 :: rest1 -> ok r1 = true ->
    stablesFeed w = r2 :: rest2 -> ok r2 = true ->
    let chains := json r1 in
    let stables := json r2 in
    exists out,
      fst (chain_details settle q w) = Resolved out /\
      ((forall c, In c chains -> JS.toLowerCase (name c) <> JS.toLowerCase q) ->
       out = ChainNotFound (map name (firstn 20 chains))) /\
      (forall c,
          find_by_name name q chains = Some c ->
          (forall s, In s stables ->
                     JS.toLowerCase (s_name s) <> JS.toLowerCase q) ->
          exists info,
            out = ChainDetails info None /\
            cd_name info = name c /\ cd_tvlRaw info = tvl c).
Proof.
  intros settle q w r1 rest1 r2 rest2 H1 O1 H2 O2. cbv zeta.
  exists (chain_details_output q (json r1) (json r2)).
  rewrite (chain_details_resolved settle q w H1 O1 H2 O2). cbn [fst].
  split; [reflexivity | split].
  - intro Hmiss. apply find_by_name_None in Hmiss.
    unfold chain_details_output. rewrite Hmiss.
    rewrite slice0_nonneg by discriminate. reflexivity.
  - intros c Hc Hmiss. apply find_by_name_None in Hmiss.
    unfold chain_details_output. rewrite Hc, Hmiss.
    eexists. split; [reflexivity | split; reflexivity].
Qed.

Lemma chain_details_misses_are_results_witness :
  let w := world_of [chain_of "Ethereum" 50; chain_of "Base" 5]
                    [stable_of "Ethereum" (Some 7)] [] in
  fst (chain_details [] "solana" w) =
    Resolved (ChainNotFound ["Ethereum"; "Base"]%string) /\
  exists info,
    fst (chain_details [] "BASE" w) = Resolved (ChainDetails info None) /\
    cd_name info = "Base"%string.
Proof.
  intro w. split.
  - destruct (@chain_details_misses_are_results [] "solana" w
                (ok_response [chain_of "Ethereum" 50; chain_of "Base" 5]) []
                (ok_response [stable_of "Ethereum" (Some 7)]) []
                eq_refl eq_refl eq_refl eq_refl) as (out & Hout & Hmiss & _).
    rewrite Hout. f_equal. apply Hmiss.
    intros c [<- | [<- | []]]; discriminate.
  - destruct (@chain_details_misses_are_results [] "BASE" w
                (ok_response [chain_of "Ethereum" 50; chain_of "Base" 5]) []
                (ok_response [stable_of "Ethereum" (Some 7)]) []
                eq_refl eq_refl eq_refl eq_refl) as (out & Hout & _ & Hstable).
    destruct (Hstable (chain_of "Base" 5) eq_refl) as (info & Hinfo & Hname & _).
    + intros s [<- | []]. discriminate.
    + exists info. rewrite Hout, Hinfo. split; [reflexivity | exact Hname].
Defined.

(** ** Category filters *)

Lemma prefix_spec (sub s : string) :
  String.prefix sub s = true <-> exists post, s = (sub ++ post)%string.
Proof.
  revert s. induction sub as [| a sub IH]; intro s.
  - split; [intros _; exists s; reflexivity | intros _; destruct s; reflexivity].
  - destruct s as [| b s]; simpl.
    + split; [discriminate | intros [post H]; discriminate].
    + destruct (ascii_dec a b) as [-> | Hab].
      * rewrite IH. split; intros [post H]; exists post.
        -- rewrite H. reflexivity.
        -- injection H as H. exact H.
      * split; [discriminate | intros [post H]]. injection H as Hb _. congruence.
Qed.

Lemma includes_spec (s sub : string) :
  JS.includes s sub = true <->
  exists pre post, s = (pre ++ sub ++ post)%string.
Proof.
  induction s as [| c s IH].
  - cbn [JS.includes]. rewrite orb_false_r, prefix_spec. split.
    + intros [post H]. exists EmptyString, post. exact H.
    + intros (pre & post & H). destruct pre; [| discriminate].
      exists post. exact H.
  - cbn [JS.includes]. rewrite orb_true_iff, prefix_spec, IH. split.
    + intros [[post H] | (pre & post & H)].
      * exists EmptyString, post. exact H.
      * exists (String c pre), post. rewrite H. reflexivity.
    + intros (pre & post & H). destruct pre as [| c' pre].
      * left. exists post. exact H.
      * right. exists pre, post. injection H as _ H. exact H.
Qed.

Lemma some_included_spec (names : list string) (c : Chain) :
  some_included names c = true <-> contains_any names c.
Proof.
  unfold some_included, contains_any. rewrite existsb_exists. split.
  - intros (n & Hn & H). apply includes_spec in H.
    destruct H as (pre & post & H). exists n, pre, post. split; assumption.
  - intros (n & pre & post & Hn & H). exists n. split; [exact Hn |].
    apply includes_spec. exists pre, post. exact H.
Qed.

(** C2 (as the code has it).  Each category filter is decided by the two
    name lists: the l2 filter keeps exactly the chains whose name contains
    an L2 name, the l1 filter those whose name contains an L1 name, the
    alt-l1 filter those whose name contains neither.  Every chain is kept
    by at least one of the three filters, the alt-l1 filter shares no
    chain with the other two, and the l2 and l1 filters share exactly the
    chains whose name contains a name of each list. *)
Theorem category_filters_cover_and_alt_is_exclusive :
  forall (filtered : list Chain) (c : Chain),
    (In c (filter_category L2 filtered) <->
     In c filtered /\ contains_any l2Names c) /\
    (In c (filter_category L1 filtered) <->
     In c filtered /\ contains_any l1Names c) /\
    (In c (filter_category AltL1 filtered) <->
     In c filtered /\ ~ contains_any l2Names c /\ ~ contains_any l1Names c) /\
    (In c filtered <->
     In c (filter_category L2 filtered) \/
     In c (filter_category L1 filtered) \/
     In c (filter_category AltL1 filtered)) /\
    (In c (filter_category AltL1 filtered) ->
     ~ In c (filter_category L2 filtered) /\
     ~ In c (filter_category L1 filtered)) /\
    (In c (filter_category L2 filtered) /\ In c (filter_category L1 filtered) <->
     In c filtered /\ contains_any l2Names c /\ contains_any l1Names c).
Proof.
  intros filtered c. unfold filter_category.
  rewrite !filter_In, andb_true_iff, !negb_true_iff.
  rewrite <- !some_included_spec.
  destruct (some_included l2Names c), (some_included l1Names c);
    intuition congruence.
Qed.

(** C2 as stated fails: a chain whose name contains both an L2 name and an
    L1 name is listed by the l2 view and by the l1 view. *)
Lemma category_views_overlap :
  let chains := [chain_of "Ethereum Base" 1] in
  map tc_name (tc_chains (top_chains_output 20 0 L2 chains)) =
    ["Ethereum Base"]%string /\
  map tc_name (tc_chains (top_chains_output 20 0 L1 chains)) =
    ["Ethereum Base"]%string /\
  ~ (forall c, In c (filter_category L2 chains) ->
               ~ In c (filter_category L1 chains)).
Proof.
  split; [reflexivity | split; [reflexivity |]].
  intro H. apply (H (chain_of "Ethereum Base" 1)); left; reflexivity.
Qed.

(** ** Winners of a comparison *)

Section Greater.
Context {A : Type}.
Variable key : A -> Q.

(** What the [reduce] with [greater] leaves in the accumulator: the seed
    if everything after it is strictly smaller, and otherwise the last
    element that is at least as large as all the others. *)
Lemma fold_greater (l : list A) (a : A) :
  let w := fold_left (greater key) l a in
  (w = a /\ Forall (fun x => key x < key a) l) \/
  (exists pre post,
      l = pre ++ w :: post /\ key a <= key w /\
      Forall (fun x => key x <= key w) pre /\
      Forall (fun x => key x < key w) post).
Proof.
  cbv zeta. revert a. induction l as [| b l IH]; intro a; simpl.
  - left. split; [reflexivity | constructor].
  - assert (Hg : (greater key a b = a /\ key b < key a) \/
                 (greater key a b = b /\ key a <= key b)).
    { unfold greater. destruct (JS.gt (key a) (key b)) eqn:G.
      - left. split; [reflexivity | apply gt_true, G].
      - right. split; [reflexivity | apply gt_false, G]. }
    destruct Hg as [[-> G] | [-> G]].
    + destruct (IH a) as [[Hw Hl] | (pre & post & Hl & Ha & Hpre & Hpost)].
      * left. split; [exact Hw |]. constructor; assumption.
      * right. exists (b :: pre), post.
        split; [rewrite Hl at 1; reflexivity |].
        split; [exact Ha |]. split; [| exact Hpost].
        constructor; [lra | exact Hpre].
    + right.
      destruct (IH b) as [[Hw Hl] | (pre & post & Hl & Hb & Hpre & Hpost)].
      * exists [], l. rewrite Hw.
        split; [reflexivity |]. split; [exact G |].
        split; [constructor | exact Hl].
      * exists (b :: pre), post.
        split; [rewrite Hl at 1; reflexivity |].
        split; [lra |]. split; [| exact Hpost].
        constructor; assumption.
Qed.

Lemma reduce1_greater (l : list A) :
  l <> [] ->
  exists w pre post,
    JS.reduce1 (greater key) l = Some w /\
    l = pre ++ w :: post /\
    Forall (fun x => key x <= key w) pre /\
    Forall (fun x => key x < key w) post.
Proof.
  destruct l as [| a l]; [congruence | intros _]. simpl.
  exists (fold_left (greater key) l a).
  destruct (fold_greater l a) as [[Hw Hl] | (pre & post & Hl & Ha & Hpre & Hpost)].
  - exists [], l. rewrite Hw. repeat split; [constructor | exact Hl].
  - exists (a :: pre), post. repeat split; try assumption.
    + rewrite Hl at 1. reflexivity.
    + constructor; assumption.
Qed.

End Greater.


Lemma compare_one_missing (allChains sorted : list Chain)
  (stables : list StablecoinChain) (bridges : list Bridge) (name0 : string) :
  find_by_name name name0 allChains = None ->
  let e := compare_one allChains sorted stables bridges name0 in
  cc_name e = name0 /\ cc_found e = false /\ cc_tvlRaw e = 0.
Proof.
  intro H. unfold compare_one. rewrite H. cbn. repeat split.
Qed.

Lemma compare_one_found_or_zero (allChains sorted : list Chain)
  (stables : list StablecoinChain) (bridges : list Bridge) (name0 : string) :
  let e := compare_one allChains sorted stables bridges name0 in
  cc_found e = false -> cc_tvlRaw e = 0.
Proof.
  unfold compare_one. destruct (find_by_name name name0 allChains); cbn;
    [discriminate | reflexivity].
Qed.





(** ** Failing fetches *)

Lemma first_rejection_in (settle : list nat) (rs : list (option string))
  (e0 : string) :
  In (Some e0) rs ->
  exists e, first_rejection settle rs = Some e /\ In (Some e) rs.
Proof.
  intro H0. induction settle as [| i settle IH]; simpl.
  - induction rs as [| r rs IH]; [contradiction |].
    simpl. destruct r as [e |].
    + exists e. split; [reflexivity | left; reflexivity].
    + destruct H0 as [H0 | H0]; [discriminate |].
      destruct (IH H0) as (e & He & Hin). exists e. split; [exact He | right; exact Hin].
  - destruct (nth i rs None) as [e |] eqn:E; [| exact IH].
    exists e. split; [reflexivity |].
    destruct (nth_in_or_default i rs None) as [Hin | Hd].
    + rewrite E in Hin. exact Hin.
    + rewrite E in Hd. discriminate.
Qed.

(** The reason [Promise.all] rejects with is the reason of one of the
    promises that rejected, whatever the order of settlement. *)
Lemma rejection_in (settle : list nat) (rs : list (option string)) (e0 : string) :
  In (Some e0) rs -> In (Some (rejection settle rs)) rs.
Proof.
  intro H0. unfold rejection.
  destruct (first_rejection_in settle rs e0 H0) as (e & -> & Hin). exact Hin.
Qed.

Lemma fetch_json_fails {T} (e : Endpoint) (feed : list (Response T)) :
  feed_fails feed = true ->
  fetch_json e feed = (Rejected (feed_error e feed), tl feed).
Proof.
  destruct feed as [| res rest]; simpl; [reflexivity |].
  rewrite negb_true_iff. intros ->. reflexivity.
Qed.

Lemma fetch_json_succeeds {T} (e : Endpoint) (feed : list (Response T)) :
  feed_fails feed = false ->
  exists body, fetch_json e feed = (Resolved body, tl feed).
Proof.
  destruct feed as [| res rest]; simpl; [discriminate |].
  rewrite negb_false_iff. intros ->. eexists. reflexivity.
Qed.

(** Either way a fetch helper settles and takes one response off its
    feed. *)
Lemma fetch_json_cases {T} (e : Endpoint) (feed : list (Response T)) :
  (feed_fails feed = true /\
   fetch_json e feed = (Rejected (feed_error e feed), tl feed)) \/
  (feed_fails feed = false /\
   exists body, fetch_json e feed = (Resolved body, tl feed)).
Proof.
  destruct (feed_fails feed) eqn:F.
  - left. split; [reflexivity | apply fetch_json_fails, F].
  - right. split; [reflexivity | apply fetch_json_succeeds, F].
Qed.

Ltac fetch_cases w :=
  unfold fetchChains, fetchStablecoins, fetchBridges;
  cbn [chainsFeed stablesFeed bridgesFeed];
  repeat match goal with
    | |- context [fetch_json ?e ?feed] =>
        let F := fresh "F" in
        let body := fresh "body" in
        let E := fresh "E" in
        destruct (fetch_json_cases e feed) as [[F E] | [F [body E]]];
        rewrite E; clear E;
        cbn [chainsFeed stablesFeed bridgesFeed]
    end.

(** C7.  If the fetch of a collection that a handler needs fails, the
    handler rejects: there is no output record.  The error it rejects with
    is the error raised by a failing fetch of one of the collections it
    needs, and each of those collections has been requested exactly once
    when it rejects. *)
Theorem failed_fetch_fails_the_query :
  forall settle q w e,
    In e (required q) -> fails e w = true ->
    exists msg,
      handle settle q w = (Rejected msg, one_request_each q w) /\
      exists e',
        In e' (required q) /\ fails e' w = true /\ msg = fetch_error e' w.
Proof.
  intros settle q w e He Hf.
  destruct q; cbn [required] in He; cbn [In] in He;
    unfold handle, wrap, one_request_each,
      overview, chain_details, top_chains, stablecoin_flows, bridge_volume,
      chain_compare;
    cbn [uses required existsb orb];
    fetch_cases w;
    cbn [fst snd await Promise_all2 Promise_all3 reason];
    repeat match goal with
      | H : _ \/ _ |- _ => destruct H
      | H : False |- _ => contradiction
      | H : _ = e |- _ => subst e
      end;
    cbn [fails] in Hf; try congruence;
    (eexists; split; [reflexivity |]);
    match goal with
    | |- context [rejection ?s ?rs] =>
        let Hin := fresh "Hin" in
        assert (Hin : In (Some (rejection s rs)) rs)
          by (eapply rejection_in; cbn [In]; eauto 6);
        cbn [In] in Hin;
        repeat match goal with
          | H : _ \/ _ |- _ => destruct H
          | H : False |- _ => contradiction
          | H : None = Some _ |- _ => discriminate H
          | H : Some _ = Some (rejection s rs) |- _ =>
              injection H as H; rewrite <- H
          end
    | _ => idtac
    end;
    first
      [ exists ChainsApi; cbn [required In fails fetch_error];
        split; [tauto | split; [assumption | reflexivity]]
      | exists StablecoinsApi; cbn [required In fails fetch_error];
        split; [tauto | split; [assumption | reflexivity]]
      | exists BridgesApi; cbn [required In fails fetch_error];
        split; [tauto | split; [assumption | reflexivity]] ].
Qed.

Lemma failed_fetch_fails_the_query_witness :
  let w := mkWorld [ok_response [chain_of "Ethereum" 50]]
                   [mkResponse false 503 []]
                   [ok_response []] in
  let q := chain_compare_q ["Ethereum"; "Base"]%string in
  exists msg,
    handle [2; 0; 1]%nat q w = (Rejected msg, one_request_each q w) /\
    exists e',
      In e' (required q) /\ fails e' w = true /\ msg = fetch_error e' w.
Proof.
  intros w q.
  apply (@failed_fetch_fails_the_query [2; 0; 1]%nat q w StablecoinsApi).
  - right. left. reflexivity.
  - reflexivity.
Defined.

Example failed_fetch_message :
  handle [2; 0; 1]%nat (chain_compare_q ["Ethereum"; "Base"]%string)
    (mkWorld [ok_response [chain_of "Ethereum" 50]]
             [mkResponse false 503 []]
             [ok_response []]) =
  (Rejected "Stablecoins API error: 503", mkWorld [] [] []).
Proof. reflexivity. Qed.

Example overview_scenario :
  let out := overview_output [chain_of "Ethereum" 50000000000;
                              chain_of "Base" 5000000000] in
  totalTVLRaw (market out) = 55000000000 /\
  map (fun e => (ov_rank e, ov_name e)) (top5 out) =
    [(1%nat, "Ethereum"%string); (2%nat, "Base"%string)].
Proof. split; reflexivity. Qed.

Example stablecoin_zero_supply_scenario :
  stablecoin_flows_output 20 [stable_of "Tron" (Some 0)] =
  mkStablecoinFlowsOutput (0 / billion) 0 [].
Proof. reflexivity. Qed.

Example compare_scenario :
  exists out,
    chain_compare_output ["Ethereum"; "Nonexistent"]%string
      [chain_of "Ethereum" 50000000000; chain_of "Base" 5000000000] [] []
    = Resolved out /\
    map (fun e => (cc_found e, cc_tvlRaw e)) (comparison out) =
      [(true, 50000000000); (false, 0)] /\
    highestTVL (winners out) = "Ethereum"%string.
Proof. eexists. split; [reflexivity |]. split; reflexivity. Qed.

(** * Further properties of the handlers *)

(** ** More on lists *)

Lemma skipn_In {A} (n : nat) (l : list A) (x : A) :
  In x (skipn n l) -> In x l.
Proof.
  intro H. rewrite <- (firstn_skipn n l). apply in_or_app. right. exact H.
Qed.

Lemma sorted_prefix_dominates {A} (key : A -> Q) (n : nat) (l : list A) :
  descending key l ->
  forall k d, In k (firstn n l) -> In d (skipn n l) -> key d <= key k.
Proof.
  unfold descending. revert n. induction l as [| x l IH]; intros n Hs k d Hk Hd.
  - destruct n; contradiction.
  - inversion Hs as [| ? ? Hl Hx]; subst.
    destruct n as [| n]; [contradiction |]. simpl in Hk, Hd.
    destruct Hk as [<- | Hk].
    + rewrite Forall_forall in Hx. apply Hx. eapply skipn_In, Hd.
    + eapply IH; eassumption.
Qed.

Lemma slice0_length_le {A} (q : Q) (l : list A) :
  0 <= q -> inject_Z (Z.of_nat (List.length (JS.slice0 q l))) <= q.
Proof.
  intro Hq. rewrite slice0_nonneg by exact Hq. rewrite length_firstn.
  assert (H0 : (0 <= Qfloor q)%Z).
  { change 0%Z with (Qfloor 0). apply Qfloor_resp_le. exact Hq. }
  apply Qle_trans with (inject_Z (Qfloor q)); [| apply Qfloor_le].
  rewrite <- Zle_Qle. lia.
Qed.

Lemma slice0_length_input {A} (q : Q) (l : list A) :
  (List.length (JS.slice0 q l) <= List.length l)%nat.
Proof.
  destruct (slice0_firstn q l) as [n ->]. rewrite length_firstn. lia.
Qed.

Section Selection.
Context {A E : Type}.
Variables (key : A -> Q) (entry : A -> nat -> E) (raw : E -> Q).
Hypothesis raw_entry : forall a i, raw (entry a i) = key a.

Lemma selection_keeps_largest (q : Q) (input : list A) :
  keeps_largest key raw input
    (JS.mapi entry (JS.slice0 q (JS.sort (desc key) input))).
Proof.
  destruct (slice0_firstn q (JS.sort (desc key) input)) as [n ->].
  exists (firstn n (JS.sort (desc key) input)),
         (skipn n (JS.sort (desc key) input)).
  split; [| split].
  - rewrite firstn_skipn. apply Permutation_sym, sort_perm.
  - apply map_mapi_from, raw_entry.
  - intros e d He Hd. apply mapi_from_In in He.
    destruct He as (a & i & Ha & ->). rewrite raw_entry.
    eapply sorted_prefix_dominates; [apply sort_descending | exact Ha | exact Hd].
Qed.
End Selection.

(** ** overview *)


(** ** The slice keeps the largest *)

(** X2.  In each of the four listing handlers the entries shown are made
    from some of the elements ranked, and no element left out has a larger
    value than an entry shown. *)
Theorem listed_entries_are_the_largest :
  (forall chains,
      keeps_largest (fun c => tvl c / billion) ov_tvl
        chains (top5 (overview_output chains))) /\
  (forall limit minTvl category chains,
      keeps_largest tvl tc_tvlRaw
        (filter_category category (filter (fun c => JS.ge (tvl c) minTvl) chains))
        (tc_chains (top_chains_output limit minTvl category chains))) /\
  (forall limit stables,
      keeps_largest stablecoinsUSD sf_stablecoinsRaw
        (map to_withUSD (filter has_positive_supply stables))
        (distribution (stablecoin_flows_output limit stables))) /\
  (forall limit period bridges,
      keeps_largest (volumeKey period) bv_volumeRaw
        (filter (fun b => JS.gt (volumeKey period b) 0) bridges)
        (bv_bridges (bridge_volume_output limit period bridges))).
Proof.
  split; [| split; [| split]].
  - intro chains. unfold overview_output. cbn [top5].
    rewrite (sort_ext (desc tvl) (desc (fun c => tvl c / billion)))
      by apply desc_scaled.
    apply (selection_keeps_largest (fun c : Chain => tvl c / billion)).
    reflexivity.
  - intros. unfold top_chains_output, top_chains_sorted. cbn [tc_chains].
    apply (selection_keeps_largest tvl). reflexivity.
  - intros. unfold stablecoin_flows_output, withUSD. cbn [distribution].
    apply (selection_keeps_largest stablecoinsUSD). reflexivity.
  - intros. unfold bridge_volume_output, bridges_sorted. cbn [bv_bridges].
    apply (selection_keeps_largest (volumeKey period)). reflexivity.
Qed.

(** ** Counts and limits *)

(** X3.  In top-chains, stablecoin-flows and bridge-volume the number of
    entries returned never exceeds the number of records that pass the
    filters; it does not exceed [limit] when [limit] is not negative; and
    when [limit] is at least the number of records that pass the filters,
    all of them are returned. *)
Theorem counts_respect_the_limit :
  (forall limit minTvl category chains,
      let out := top_chains_output limit minTvl category chains in
      let eligible :=
        filter_category category (filter (fun c => JS.ge (tvl c) minTvl) chains) in
      (tc_count out <= List.length eligible)%nat /\
      (0 <= limit -> inject_Z (Z.of_nat (tc_count out)) <= limit) /\
      (inject_Z (Z.of_nat (List.length eligible)) <= limit ->
       tc_count out = List.length eligible)) /\
  (forall limit stables,
      let out := stablecoin_flows_output limit stables in
      let eligible := filter has_positive_supply stables in
      (chainCount out <= List.length eligible)%nat /\
      (0 <= limit -> inject_Z (Z.of_nat (chainCount out)) <= limit) /\
      (inject_Z (Z.of_nat (List.length eligible)) <= limit ->
       chainCount out = List.length eligible)) /\
  (forall limit period bridges,
      let out := bridge_volume_output limit period bridges in
      let eligible := filter (fun b => JS.gt (volumeKey period b) 0) bridges in
      (bridgeCount out <= List.length eligible)%nat /\
      (0 <= limit -> inject_Z (Z.of_nat (bridgeCount out)) <= limit) /\
      (inject_Z (Z.of_nat (List.length eligible)) <= limit ->
       bridgeCount out = List.length eligible)).
Proof.
  split; [| split].
  - intros limit minTvl category chains. cbv zeta.
    unfold top_chains_output, top_chains_sorted. cbn [tc_count].
    set (eligible := filter_category _ _).
    rewrite <- (sort_length (desc tvl) eligible).
    split; [apply slice0_length_input | split].
    + apply slice0_length_le.
    + intro H. rewrite slice0_all; [reflexivity | exact H].
  - intros limit stables. cbv zeta.
    unfold stablecoin_flows_output, withUSD. cbn [chainCount].
    rewrite <- (length_map to_withUSD (filter has_positive_supply stables)).
    set (eligible := map to_withUSD _).
    rewrite <- (sort_length (desc stablecoinsUSD) eligible).
    split; [apply slice0_length_input | split].
    + apply slice0_length_le.
    + intro H. rewrite slice0_all; [reflexivity | exact H].
  - intros limit period bridges. cbv zeta.
    unfold bridge_volume_output, bridges_sorted. cbn [bridgeCount].
    set (eligible := filter _ bridges).
    rewrite <- (sort_length (desc (volumeKey period)) eligible).
    split; [apply slice0_length_input | split].
    + apply slice0_length_le.
    + intro H. rewrite slice0_all; [reflexivity | exact H].
Qed.

Lemma counts_respect_the_limit_witness :
  inject_Z (Z.of_nat
    (tc_count (top_chains_output 2 0 All
       [chain_of "Ethereum" 50; chain_of "Base" 5; chain_of "Tron" 7]))) <= 2 /\
  chainCount (stablecoin_flows_output 20
    [stable_of "Ethereum" (Some 60); stable_of "Tron" (Some 40)]) = 2%nat.
Proof.
  split.
  - apply (proj1 counts_respect_the_limit 2 0 All
             [chain_of "Ethereum" 50; chain_of "Base" 5; chain_of "Tron" 7]).
    discriminate.
  - apply (proj1 (proj2 counts_respect_the_limit) 20
             [stable_of "Ethereum" (Some 60); stable_of "Tron" (Some 40)]).
    vm_compute. discriminate.
Defined.

(** ** What the filters let through *)

Lemma filter_category_In (category : Category) (filtered : list Chain)
  (c : Chain) :
  In c (filter_category category filtered) <->
  In c filtered /\ in_category category c.
Proof.
  destruct category; unfold filter_category, in_category.
  - tauto.
  - rewrite filter_In, some_included_spec. tauto.
  - rewrite filter_In, some_included_spec. tauto.
  - rewrite filter_In, andb_true_iff, !negb_true_iff.
    rewrite <- !some_included_spec.
    destruct (some_included l2Names c), (some_included l1Names c);
      intuition congruence.
Qed.

(** X4.  Every chain returned by top-chains is a fetched chain whose tvl is
    at least [minTvl] and which is in the category asked for, shown with
    its own name, tvl and token symbol.  When no fetched chain reaches
    [minTvl], the list is empty, the count is 0 and the total is 0. *)
Theorem top_chains_returns_only_matching_chains :
  forall limit minTvl category chains,
    let out := top_chains_output limit minTvl category chains in
    Forall (fun e =>
              exists c,
                In c chains /\ minTvl <= tvl c /\ in_category category c /\
                tc_name e = name c /\ tc_tvlRaw e = tvl c /\
                tc_tvl e = tvl c / billion /\
                tc_tokenSymbol e = tokenSymbol c)
           (tc_chains out) /\
    ((forall c, In c chains -> tvl c < minTvl) ->
     tc_chains out = [] /\ tc_count out = 0%nat /\ tc_totalTVL out == 0).
Proof.
  intros limit minTvl category chains. cbv zeta.
  unfold top_chains_output, top_chains_sorted.
  cbn [tc_chains tc_count tc_totalTVL]. split.
  - rewrite Forall_forall. intros e He.
    apply mapi_from_In in He. destruct He as (c & i & Hc & ->).
    apply slice0_In, sort_In, filter_category_In in Hc.
    destruct Hc as [Hc Hcat]. apply filter_In in Hc. destruct Hc as [Hin Hge].
    apply Qle_bool_iff in Hge.
    exists c. cbn. repeat split; assumption.
  - intro Hlow.
    assert (E : filter (fun c => JS.ge (tvl c) minTvl) chains = []).
    { induction chains as [| c l IH]; [reflexivity |]. simpl.
      assert (Hc : JS.ge (tvl c) minTvl = false).
      { unfold JS.ge. destruct (Qle_bool minTvl (tvl c)) eqn:G; [| reflexivity].
        apply Qle_bool_iff in G.
        pose proof (Hlow c (or_introl eq_refl)). lra. }
      rewrite Hc. apply IH. intros x Hx. apply Hlow. right. exact Hx. }
    rewrite E.
    assert (E' : filter_category category [] = []) by (destruct category; reflexivity).
    rewrite E'. cbn [JS.sort].
    assert (E'' : JS.slice0 limit (@nil Chain) = [])
      by (destruct (slice0_firstn limit (@nil Chain)) as [n ->]; apply firstn_nil).
    rewrite E''. repeat split.
Qed.

Lemma top_chains_returns_only_matching_chains_witness :
  tc_chains (top_chains_output 20 100 All
               [chain_of "Ethereum" 50; chain_of "Base" 5]) = [] /\
  tc_count (top_chains_output 20 100 All
               [chain_of "Ethereum" 50; chain_of "Base" 5]) = 0%nat /\
  tc_totalTVL (top_chains_output 20 100 All
               [chain_of "Ethereum" 50; chain_of "Base" 5]) == 0.
Proof.
  apply (top_chains_returns_only_matching_chains 20 100 All
           [chain_of "Ethereum" 50; chain_of "Base" 5]).
  intros c [<- | [<- | []]]; reflexivity.
Defined.

(** X5.  Every entry of stablecoin-flows is built from a fetched record
    whose supply is present and positive, and no more entries are shown
    than there are such records.  When no record has a positive supply the
    distribution is empty, the count is 0 and the total is 0. *)
Theorem stablecoin_flows_skips_missing_supply :
  forall limit stables,
    let out := stablecoin_flows_output limit stables in
    Forall (fun e =>
              exists s v,
                In s stables /\ peggedUSD s = Some v /\ 0 < v /\
                sf_chain e = s_name s /\ sf_stablecoinsRaw e = v /\
                sf_stablecoins e = v / billion)
           (distribution out) /\
    ((forall s, In s stables ->
                match peggedUSD s with Some v => v <= 0 | None => True end) ->
     distribution out = [] /\ chainCount out = 0%nat /\
     totalStablecoins out == 0).
Proof.
  intros limit stables. cbv zeta.
  unfold stablecoin_flows_output, withUSD.
  cbn [distribution chainCount totalStablecoins]. split.
  - rewrite Forall_forall. intros e He.
    apply mapi_from_In in He. destruct He as (x & i & Hx & ->).
    apply slice0_In, sort_In, in_map_iff in Hx.
    destruct Hx as (s & <- & Hs). apply filter_In in Hs.
    destruct Hs as [Hin Hs]. unfold has_positive_supply in Hs.
    destruct (peggedUSD s) as [v |] eqn:Ev; [| discriminate].
    apply andb_true_iff in Hs. destruct Hs as [_ Hs]. apply gt_true in Hs.
    exists s, v. unfold to_withUSD. cbn. rewrite Ev.
    repeat split; assumption.
  - intro Hnone.
    assert (E : filter has_positive_supply stables = []).
    { induction stables as [| s l IH]; [reflexivity |]. simpl.
      assert (Hs : has_positive_supply s = false).
      { pose proof (Hnone s (or_introl eq_refl)) as H.
        unfold has_positive_supply. destruct (peggedUSD s) as [v |]; [| reflexivity].
        apply andb_false_iff. right. apply gt_false. exact H. }
      rewrite Hs. apply IH. intros x Hx. apply Hnone. right. exact Hx. }
    rewrite E. cbn [map JS.sort].
    assert (E' : JS.slice0 limit (@nil WithUSD) = [])
      by (destruct (slice0_firstn limit (@nil WithUSD)) as [n ->]; apply firstn_nil).
    rewrite E'. repeat split.
Qed.

Lemma stablecoin_flows_skips_missing_supply_witness :
  distribution (stablecoin_flows_output 20
                  [stable_of "Tron" (Some 0); stable_of "Base" None]) = [] /\
  chainCount (stablecoin_flows_output 20
                [stable_of "Tron" (Some 0); stable_of "Base" None]) = 0%nat /\
  totalStablecoins (stablecoin_flows_output 20
                      [stable_of "Tron" (Some 0); stable_of "Base" None]) == 0.
Proof.
  apply (stablecoin_flows_skips_missing_supply 20
           [stable_of "Tron" (Some 0); stable_of "Base" None]).
  intros s [<- | [<- | []]]; cbn; [discriminate | exact I].
Defined.

(** ** Range and order of the shares *)




Lemma sum_ge_member {A} (key : A -> Q) (l : list A) (x : A) :
  Forall (fun a => 0 < key a) l -> In x l -> key x <= JS.sum key l.
Proof.
  induction 1 as [| a l Ha Hl IH]; intro Hin; [contradiction |].
  rewrite sum_cons. pose proof (sum_nonneg key Hl) as Hn.
  destruct Hin as [<- | Hin]; [lra |]. specialize (IH Hin). lra.
Qed.

Section ShareRange.
Context {A E : Type}.
Variables (key : A -> Q) (entry : A -> nat -> E) (share : E -> option Q).
Variable kept : list A.
Hypothesis share_entry :
  forall a i, share (entry a i) = share_of (key a) (JS.sum key kept).
Hypothesis positive : Forall (fun a => 0 < key a) kept.
Hypothesis sorted : descending key kept.

End ShareRange.



(** ** Raising the limit *)

Lemma firstn_min_length {A} (n : nat) (l : list A) :
  firstn (Nat.min n (List.length l)) l = firstn n l.
Proof.
  destruct (Nat.le_ge_cases n (List.length l)) as [H | H].
  - rewrite Nat.min_l by exact H. reflexivity.
  - rewrite Nat.min_r by exact H. rewrite !firstn_all2; [reflexivity | exact H | lia].
Qed.

(** A smaller non-negative bound keeps an initial part of what a larger one
    keeps. *)
Lemma slice0_mono {A} (a b : Q) (l : list A) :
  0 <= a -> a <= b ->
  JS.slice0 a l = firstn (List.length (JS.slice0 a l)) (JS.slice0 b l).
Proof.
  intros Ha Hab.
  assert (Hb : 0 <= b) by lra.
  rewrite !slice0_nonneg by assumption.
  assert (H0 : (0 <= Qfloor a)%Z).
  { change 0%Z with (Qfloor 0). apply Qfloor_resp_le. exact Ha. }
  pose proof (Qfloor_resp_le _ _ Hab) as Hfl.
  rewrite length_firstn, firstn_firstn.
  rewrite <- Nat.min_assoc, (Nat.min_comm (List.length l)), Nat.min_assoc.
  rewrite (Nat.min_l (Z.to_nat (Qfloor a))) by lia.
  symmetry. apply firstn_min_length.
Qed.

Lemma mapi_from_firstn {A B} (f : A -> nat -> B) (s n : nat) (l : list A) :
  JS.mapi_from s f (firstn n l) = firstn n (JS.mapi_from s f l).
Proof.
  revert s n. induction l as [| x l IH]; intros s [| n]; simpl;
    try reflexivity.
  rewrite IH. reflexivity.
Qed.

Lemma mapi_from_nth_error {A B} (f : A -> nat -> B) (s i : nat) (l : list A) :
  nth_error (JS.mapi_from s f l) i =
  option_map (fun x => f x (s + i)%nat) (nth_error l i).
Proof.
  revert s i. induction l as [| x l IH]; intros s [| i]; simpl;
    try reflexivity.
  - rewrite Nat.add_0_r. reflexivity.
  - rewrite IH. rewrite Nat.add_succ_r. reflexivity.
Qed.

(** X7.  In top-chains, for limits [0 <= a <= b], the list returned for
    [a] is the beginning of the list returned for [b]: the same entries
    with the same ranks. *)
Theorem top_chains_smaller_limit_is_a_prefix :
  forall a b minTvl category chains,
    0 <= a -> a <= b ->
    let short := top_chains_output a minTvl category chains in
    let long := top_chains_output b minTvl category chains in
    tc_chains short = firstn (tc_count short) (tc_chains long).
Proof.
  intros a b minTvl category chains Ha Hab. cbv zeta.
  unfold top_chains_output, top_chains_sorted. cbn [tc_chains tc_count].
  set (sorted := JS.sort (desc tvl) _).
  unfold JS.mapi. rewrite <- mapi_from_firstn.
  rewrite <- (slice0_mono sorted Ha Hab). reflexivity.
Qed.

Lemma top_chains_smaller_limit_is_a_prefix_witness :
  let chains := [chain_of "Base" 5; chain_of "Ethereum" 50; chain_of "Tron" 7] in
  tc_chains (top_chains_output 1 0 All chains) =
  firstn (tc_count (top_chains_output 1 0 All chains))
         (tc_chains (top_chains_output 2 0 All chains)).
Proof.
  intro chains.
  apply (@top_chains_smaller_limit_is_a_prefix 1 2 0 All chains); discriminate.
Defined.

Lemma share_value_antitone (x ta tb : Q) :
  0 <= x -> 0 < ta -> ta <= tb -> x / tb * 100 <= x / ta * 100.
Proof.
  intros Hx Ha Hab.
  apply Qmult_le_compat_r; [| discriminate].
  apply Qle_shift_div_r; [lra |].
  assert (Hq : 0 <= x / ta).
  { unfold Qdiv. apply Qmult_le_0_compat; [exact Hx |].
    apply Qinv_le_0_compat. lra. }
  assert (Hx' : x / ta * ta == x) by (field; lra).
  apply Qle_trans with (x / ta * ta).
  - rewrite Hx'. apply Qle_refl.
  - rewrite !(Qmult_comm (x / ta)). apply Qmult_le_compat_r; assumption.
Qed.

Lemma sum_firstn_le {A} (key : A -> Q) (n : nat) (l : list A) :
  Forall (fun a => 0 < key a) l -> JS.sum key (firstn n l) <= JS.sum key l.
Proof.
  intro H. rewrite <- (firstn_skipn n l) at 2. rewrite sum_app.
  assert (0 <= JS.sum key (skipn n l)); [| lra].
  apply sum_nonneg. rewrite Forall_forall in *.
  intros x Hx. apply H. eapply skipn_In, Hx.
Qed.

Section LimitAndShares.
Context {A E : Type}.
Variables (key : A -> Q) (entry : Q -> A -> nat -> E).
Variable share : E -> option Q.
Variable input : list A.
Hypothesis share_entry :
  forall t a i, share (entry t a i) = share_of (key a) t.
Hypothesis positive : Forall (fun a => 0 < key a) input.

(** The entries a handler builds for a given limit. *)
Let shown (q : Q) : list E :=
  let kept := JS.slice0 q (JS.sort (desc key) input) in
  JS.mapi (entry (JS.sum key kept)) kept.

Lemma shares_shrink_with_limit (a b : Q) (i : nat) (ea eb : E) :
  0 <= a -> a <= b ->
  nth_error (shown a) i = Some ea ->
  nth_error (shown b) i = Some eb ->
  exists x sa sb,
    ea = entry (JS.sum key (JS.slice0 a (JS.sort (desc key) input))) x i /\
    eb = entry (JS.sum key (JS.slice0 b (JS.sort (desc key) input))) x i /\
    share ea = Some sa /\ share eb = Some sb /\ sb <= sa.
Proof.
  intros Ha Hab Hea Heb. unfold shown, JS.mapi in Hea, Heb.
  set (sorted := JS.sort (desc key) input) in *.
  set (ka := JS.slice0 a sorted) in *. set (kb := JS.slice0 b sorted) in *.
  rewrite mapi_from_nth_error in Hea, Heb. cbn [Nat.add] in Hea, Heb.
  assert (Hka : ka = firstn (List.length ka) kb) by (apply slice0_mono; assumption).
  destruct (nth_error ka i) as [x |] eqn:Ex; [| discriminate].
  destruct (nth_error kb i) as [y |] eqn:Ey; [| discriminate].
  injection Hea as <-. injection Heb as <-.
  assert (Hxy : x = y).
  { rewrite Hka, nth_error_firstn in Ex.
    destruct (i <? List.length ka)%nat; [| discriminate]. congruence. }
  subst y.
  assert (Hposb : Forall (fun a0 => 0 < key a0) kb).
  { apply slice0_Forall, sort_Forall, positive. }
  assert (Hx : 0 < key x).
  { rewrite Forall_forall in Hposb. eapply Hposb, nth_error_In, Ey. }
  assert (Hta : 0 < JS.sum key ka).
  { apply Qlt_le_trans with (key x); [exact Hx |].
    apply sum_ge_member; [| eapply nth_error_In, Ex].
    rewrite Hka. apply firstn_Forall, Hposb. }
  assert (Hab' : JS.sum key ka <= JS.sum key kb).
  { rewrite Hka at 1. apply sum_firstn_le, Hposb. }
  exists x, (key x / JS.sum key ka * 100), (key x / JS.sum key kb * 100).
  split; [reflexivity | split; [reflexivity |]].
  rewrite !share_entry.
  split; [apply share_of_defined; lra | split; [apply share_of_defined; lra |]].
  apply share_value_antitone; [lra | exact Hta | exact Hab'].
Qed.
End LimitAndShares.

Lemma positive_supplies (stables : list StablecoinChain) :
  Forall (fun s => 0 < stablecoinsUSD s)
         (map to_withUSD (filter has_positive_supply stables)).
Proof.
  rewrite Forall_forall. intros x Hx.
  apply in_map_iff in Hx. destruct Hx as (s & <- & Hs).
  apply filter_In in Hs. destruct Hs as [_ Hs].
  unfold has_positive_supply in Hs. unfold to_withUSD. simpl.
  destruct (peggedUSD s) as [v |]; [| discriminate].
  apply andb_true_iff in Hs. destruct Hs as [_ Hs].
  apply gt_true in Hs. exact Hs.
Qed.

(** X8.  In stablecoin-flows and bridge-volume, for limits [0 <= a <= b],
    the entry at a given position names the same record with the same rank
    and value under both limits, and its share under the larger limit is
    at most its share under the smaller one: showing more entries can only
    lower the share of those already shown. *)
Theorem shares_shrink_when_limit_grows :
  (forall a b stables i ea eb,
      0 <= a -> a <= b ->
      nth_error (distribution (stablecoin_flows_output a stables)) i = Some ea ->
      nth_error (distribution (stablecoin_flows_output b stables)) i = Some eb ->
      sf_rank ea = sf_rank eb /\ sf_chain ea = sf_chain eb /\
      sf_stablecoinsRaw ea = sf_stablecoinsRaw eb /\
      exists sa sb,
        sf_share ea = Some sa /\ sf_share eb = Some sb /\ sb <= sa) /\
  (forall a b period bridges i ea eb,
      0 <= a -> a <= b ->
      nth_error (bv_bridges (bridge_volume_output a period bridges)) i = Some ea ->
      nth_error (bv_bridges (bridge_volume_output b period bridges)) i = Some eb ->
      bv_rank ea = bv_rank eb /\ bv_name ea = bv_name eb /\
      bv_volumeRaw ea = bv_volumeRaw eb /\
      exists sa sb,
        bv_share ea = Some sa /\ bv_share eb = Some sb /\ sb <= sa).
Proof.
  split.
  - intros a b stables i ea eb Ha Hab Hea Heb.
    destruct (@shares_shrink_with_limit _ _ stablecoinsUSD
                (fun t s i =>
                   mkDistributionEntry (i + 1) (wu_name s)
                     (stablecoinsUSD s / billion) (stablecoinsUSD s)
                     (share_of (stablecoinsUSD s) t))
                sf_share
                (map to_withUSD (filter has_positive_supply stables))
                (fun _ _ _ => eq_refl) (positive_supplies stables)
                a b i ea eb Ha Hab Hea Heb)
      as (x & sa & sb & -> & -> & Hsa & Hsb & Hle).
    repeat split. exists sa, sb. repeat split; assumption.
  - intros a b period bridges i ea eb Ha Hab Hea Heb.
    assert (Hpos : Forall (fun x => 0 < volumeKey period x)
                     (filter (fun x => JS.gt (volumeKey period x) 0) bridges)).
    { rewrite Forall_forall. intros x Hx. apply filter_In in Hx.
      apply gt_true, Hx. }
    destruct (@shares_shrink_with_limit _ _ (volumeKey period)
                (fun t x i =>
                   mkBridgeEntry (i + 1) (displayName x)
                     (volumeKey period x / million) (volumeKey period x)
                     (share_of (volumeKey period x) t)
                     (List.length (chains x)) (JS.slice0 5 (chains x)))
                bv_share
                (filter (fun x => JS.gt (volumeKey period x) 0) bridges)
                (fun _ _ _ => eq_refl) Hpos
                a b i ea eb Ha Hab Hea Heb)
      as (x & sa & sb & -> & -> & Hsa & Hsb & Hle).
    repeat split. exists sa, sb. repeat split; assumption.
Qed.

Lemma shares_shrink_when_limit_grows_witness :
  let stables := [stable_of "Ethereum" (Some 60); stable_of "Tron" (Some 40)] in
  exists ea eb sa sb,
    nth_error (distribution (stablecoin_flows_output 1 stables)) 0 = Some ea /\
    nth_error (distribution (stablecoin_flows_output 2 stables)) 0 = Some eb /\
    sf_chain ea = sf_chain eb /\
    sf_share ea = Some sa /\ sf_share eb = Some sb /\ sb <= sa.
Proof.
  intro stables.
  destruct (proj1 shares_shrink_when_limit_grows 1 2 stables 0%nat
              _ _ ltac:(discriminate) ltac:(discriminate) eq_refl eq_refl)
    as (_ & Hname & _ & sa & sb & Hsa & Hsb & Hle).
  do 2 eexists. exists sa, sb.
  split; [reflexivity | split; [reflexivity |]].
  split; [exact Hname | split; [exact Hsa | split; [exact Hsb | exact Hle]]].
Defined.

(** ** Ranks in chain-details *)

Lemma findIndex_found {A} (p : A -> bool) (l : list A) :
  (exists x, In x l /\ p x = true) ->
  exists i x,
    JS.findIndex p l = Z.of_nat i /\ nth_error l i = Some x /\ p x = true /\
    Forall (fun y => p y = false) (firstn i l).
Proof.
  induction l as [| a l IH]; intros (x & Hin & Hx); [contradiction |].
  simpl. destruct (p a) eqn:Pa.
  - exists 0%nat, a. repeat split; [exact Pa | constructor].
  - destruct Hin as [-> | Hin]; [congruence |].
    destruct (IH (ex_intro _ x (conj Hin Hx))) as (i & y & Hi & Hy & Py & Hpre).
    exists (S i), y. rewrite Hi.
    destruct (Z.of_nat i <? 0)%Z eqn:Hneg; [apply Z.ltb_lt in Hneg; lia |].
    repeat split; [lia | exact Hy | exact Py |].
    simpl. constructor; assumption.
Qed.

Lemma findIndex_missing {A} (p : A -> bool) (l : list A) :
  (forall x, In x l -> p x = false) -> JS.findIndex p l = (-1)%Z.
Proof.
  induction l as [| a l IH]; intro H; [reflexivity |]. simpl.
  rewrite (H a (or_introl eq_refl)), IH; [reflexivity |].
  intros x Hx. apply H. right. exact Hx.
Qed.

Lemma filter_length_perm {A} (p : A -> bool) (l l' : list A) :
  Permutation l l' -> List.length (filter p l) = List.length (filter p l').
Proof.
  induction 1 as [| x l l' _ IH | x y l | l l' l'' _ IH1 _ IH2]; simpl.
  - reflexivity.
  - destruct (p x); simpl; rewrite IH; reflexivity.
  - destruct (p x), (p y); reflexivity.
  - rewrite IH1. exact IH2.
Qed.

Lemma filter_all {A} (p : A -> bool) (l : list A) :
  Forall (fun x => p x = true) l -> filter p l = l.
Proof.
  induction 1 as [| x l Hx _ IH]; simpl; [| rewrite Hx, IH]; reflexivity.
Qed.

Lemma filter_none {A} (p : A -> bool) (l : list A) :
  Forall (fun x => p x = false) l -> filter p l = [].
Proof.
  induction 1 as [| x l Hx _ IH]; simpl; [| rewrite Hx, IH]; reflexivity.
Qed.

Lemma NoDup_map_injective {A B} (f : A -> B) (l : list A) (x y : A) :
  NoDup (map f l) -> In x l -> In y l -> f x = f y -> x = y.
Proof.
  induction l as [| a l IH]; intros Hnd Hx Hy Hf; [contradiction |].
  simpl in Hnd. inversion Hnd as [| ? ? Hna Hl]; subst.
  destruct Hx as [-> | Hx], Hy as [-> | Hy].
  - reflexivity.
  - exfalso. apply Hna. rewrite Hf. apply in_map, Hy.
  - exfalso. apply Hna. rewrite <- Hf. apply in_map, Hx.
  - apply IH; assumption.
Qed.

(** In a descending list nothing up to position [i] has a smaller key than
    the element at [i], and nothing after it has a larger one. *)
Lemma descending_split {A} (key : A -> Q) (l : list A) (i : nat) (x : A) :
  descending key l -> nth_error l i = Some x ->
  l = firstn i l ++ x :: skipn (S i) l /\
  Forall (fun y => key x <= key y) (firstn i l) /\
  Forall (fun y => key y <= key x) (skipn (S i) l).
Proof.
  intros Hd Hx.
  pose proof (firstn_skipn_middle i l Hx) as Hl.
  split; [symmetry; exact Hl | split].
  - rewrite Forall_forall. intros y Hy.
    apply (sorted_prefix_dominates i Hd); [exact Hy |].
    apply nth_error_In with (n := 0%nat).
    rewrite nth_error_skipn, Nat.add_0_r. exact Hx.
  - rewrite Forall_forall. intros y Hy.
    apply (sorted_prefix_dominates (S i) Hd); [| exact Hy].
    apply nth_error_In with (n := i).
    rewrite nth_error_firstn.
    destruct (i <? S i)%nat eqn:E; [exact Hx |].
    apply Nat.ltb_ge in E. lia.
Qed.

(** Where chain-details finds the rank: the first chain of the sorted array
    that has the name of the chain looked up. *)
Lemma details_rank_position (q : string) (chains : list Chain) (c : Chain) :
  find_by_name name q chains = Some c ->
  exists i c',
    JS.findIndex (fun x => String.eqb (name x) (name c))
                 (JS.sort (desc tvl) chains) = Z.of_nat i /\
    nth_error (JS.sort (desc tvl) chains) i = Some c' /\
    name c' = name c /\
    Forall (fun y => name y <> name c) (firstn i (JS.sort (desc tvl) chains)).
Proof.
  intro H. apply find_by_name_Some in H. destruct H as [Hin _].
  destruct (@findIndex_found _ (fun x => String.eqb (name x) (name c))
              (JS.sort (desc tvl) chains)) as (i & c' & Hi & Hc' & Hn & Hpre).
  { exists c. split; [apply sort_In, Hin | apply String.eqb_refl]. }
  exists i, c'. repeat split; try assumption.
  - apply String.eqb_eq, Hn.
  - eapply Forall_impl; [| exact Hpre]. intros y Hy.
    cbv beta in Hy. apply String.eqb_neq, Hy.
Qed.

(** X9.  When chain-details finds a chain, its rank lies between 1 and the
    number of chains, and it is at most the number of chains whose tvl is
    at least that of the chain found.  When no two chains share a name, the
    rank is moreover above the number of chains with a strictly larger
    tvl. *)
Theorem chain_details_rank_reflects_tvl :
  forall q chains stables c,
    find_by_name name q chains = Some c ->
    exists info st,
      chain_details_output q chains stables = ChainDetails info st /\
      cd_name info = name c /\ cd_tvlRaw info = tvl c /\
      cd_totalChains info = List.length chains /\
      (1 <= cd_rank info <= Z.of_nat (List.length chains))%Z /\
      (cd_rank info <=
       Z.of_nat (List.length (filter (fun x => JS.ge (tvl x) (tvl c)) chains)))%Z /\
      (NoDup (map name chains) ->
       (Z.of_nat (List.length (filter (fun x => JS.gt (tvl x) (tvl c)) chains))
        < cd_rank info)%Z).
Proof.
  intros q chains stables c Hc.
  destruct (@details_rank_position q chains c Hc) as (i & c' & Hi & Hc' & Hname & Hpre).
  set (sorted := JS.sort (desc tvl) chains) in *.
  assert (Hd : descending tvl sorted) by apply sort_descending.
  destruct (@descending_split _ tvl sorted i c' Hd Hc') as (Hl & Hbefore & Hafter).
  assert (Hin : In c sorted).
  { apply sort_In. apply find_by_name_Some in Hc. apply Hc. }
  assert (Hle : tvl c <= tvl c').
  { rewrite Hl in Hin. apply in_app_or in Hin. destruct Hin as [Hin | [-> | Hin]].
    - rewrite Forall_forall in Hpre. exfalso. apply (Hpre c Hin). reflexivity.
    - apply Qle_refl.
    - rewrite Forall_forall in Hafter. apply Hafter, Hin. }
  assert (Hsl : List.length sorted = List.length chains) by apply sort_length.
  assert (Hlen : (i < List.length sorted)%nat).
  { apply nth_error_Some. rewrite Hc'. discriminate. }
  unfold chain_details_output. rewrite Hc. fold sorted. rewrite Hi.
  do 2 eexists. split; [reflexivity |].
  cbn [cd_name cd_tvlRaw cd_totalChains cd_rank].
  split; [reflexivity | split; [reflexivity |]].
  split; [exact Hsl |].
  split; [lia |]. split.
  - rewrite (filter_length_perm _ (Permutation_sym (sort_perm (desc tvl) chains))).
    fold sorted. rewrite Hl, filter_app, length_app.
    rewrite filter_all.
    + rewrite length_firstn. simpl filter.
      assert (G : JS.ge (tvl c') (tvl c) = true) by (apply Qle_bool_iff, Hle).
      rewrite G. simpl List.length. lia.
    + eapply Forall_impl; [| exact Hbefore]. intros y Hy. cbv beta in Hy.
      apply Qle_bool_iff. lra.
  - intro Hnd.
    assert (Hsame : c' = c).
    { apply (@NoDup_map_injective _ _ name sorted); [| | exact Hin | exact Hname].
      - eapply Permutation_NoDup; [| exact Hnd].
        apply Permutation_map, Permutation_sym, sort_perm.
      - eapply nth_error_In, Hc'. }
    subst c'.
    rewrite (filter_length_perm _ (Permutation_sym (sort_perm (desc tvl) chains))).
    fold sorted. rewrite Hl, filter_app, length_app.
    rewrite (@filter_none _ _ (c :: skipn (S i) sorted)).
    + pose proof (filter_length_le (fun x => JS.gt (tvl x) (tvl c)) (firstn i sorted)) as F.
      rewrite length_firstn in F. simpl List.length. lia.
    + constructor; [apply gt_false, Qle_refl |].
      eapply Forall_impl; [| exact Hafter]. intros y Hy. cbv beta in Hy.
      apply gt_false, Hy.
Qed.

Lemma chain_details_rank_reflects_tvl_witness :
  let chains := [chain_of "Base" 5; chain_of "Ethereum" 50; chain_of "Tron" 7] in
  exists info st,
    chain_details_output "tron" chains [] = ChainDetails info st /\
    cd_name info = "Tron"%string /\
    (1 < cd_rank info <= 2)%Z.
Proof.
  intro chains.
  destruct (@chain_details_rank_reflects_tvl "tron" chains [] (chain_of "Tron" 7)
              eq_refl)
    as (info & st & Hout & Hname & _ & _ & _ & Hup & Hlow).
  exists info, st. split; [exact Hout | split; [exact Hname |]].
  split.
  - apply Hlow. vm_compute. repeat constructor; simpl; intuition discriminate.
  - exact Hup.
Defined.

(** ** Handlers that agree *)

Lemma mapi_from_fields {A B B' C} (f : A -> nat -> B) (f' : A -> nat -> B')
  (g : B -> C) (g' : B' -> C) (s : nat) (l : list A) :
  (forall x i, g (f x i) = g' (f' x i)) ->
  map g (JS.mapi_from s f l) = map g' (JS.mapi_from s f' l).
Proof.
  intro H. revert s. induction l as [| x l IH]; intro s; simpl;
    [| rewrite H, IH]; reflexivity.
Qed.

(** X10.  On the same fetched chains, when chain-details gives a chain a
    rank of at most 5, the overview lists that name at that rank. *)
Theorem chain_details_rank_matches_overview :
  forall q chains stables c info st,
    find_by_name name q chains = Some c ->
    chain_details_output q chains stables = ChainDetails info st ->
    (cd_rank info <= 5)%Z ->
    exists e,
      nth_error (top5 (overview_output chains)) (Z.to_nat (cd_rank info - 1))
        = Some e /\
      Z.of_nat (ov_rank e) = cd_rank info /\
      ov_name e = cd_name info.
Proof.
  intros q chains stables c info st Hc Hout Hr.
  destruct (@details_rank_position q chains c Hc)
    as (i & c' & Hi & Hc' & Hname & _).
  unfold chain_details_output in Hout. rewrite Hc, Hi in Hout.
  injection Hout as <- _. cbn [cd_rank cd_name] in *.
  replace (Z.to_nat (Z.of_nat i + 1 - 1)) with i by lia.
  unfold overview_output. cbn [top5]. unfold JS.mapi.
  rewrite mapi_from_nth_error, slice0_nonneg by discriminate.
  rewrite nth_error_firstn.
  change (Z.to_nat (Qfloor 5)) with 5%nat.
  destruct (i <? 5)%nat eqn:E; [| apply Nat.ltb_ge in E; lia].
  rewrite Hc'. cbn [option_map]. eexists. split; [reflexivity |].
  cbn [ov_rank ov_name]. split; [lia | exact Hname].
Qed.

Lemma chain_details_rank_matches_overview_witness :
  let chains := [chain_of "Base" 5; chain_of "Ethereum" 50; chain_of "Tron" 7] in
  exists e,
    nth_error (top5 (overview_output chains)) 1 = Some e /\
    ov_rank e = 2%nat /\ ov_name e = "Tron"%string.
Proof.
  intro chains.
  destruct (@chain_details_rank_matches_overview "TRON" chains []
              (chain_of "Tron" 7) _ _ eq_refl eq_refl)
    as (e & He & Hrank & Hname).
  - vm_compute. discriminate.
  - exists e. split; [exact He | split; [| exact Hname]].
    apply Nat2Z.inj. exact Hrank.
Defined.

(** X11.  When every fetched chain has a tvl of at least [minTvl], the
    first five of top-chains without a category are the five of the
    overview: same ranks, names and tvl. *)
Theorem overview_is_top_chains_of_five :
  forall minTvl chains,
    (forall c, In c chains -> minTvl <= tvl c) ->
    map (fun e => (tc_rank e, tc_name e, tc_tvlRaw e / billion))
        (tc_chains (top_chains_output 5 minTvl All chains)) =
    map (fun e => (ov_rank e, ov_name e, ov_tvl e))
        (top5 (overview_output chains)).
Proof.
  intros minTvl chains Hmin.
  unfold top_chains_output, top_chains_sorted, overview_output.
  cbn [tc_chains top5 filter_category].
  rewrite filter_all.
  - apply mapi_from_fields. reflexivity.
  - rewrite Forall_forall. intros c Hc. apply Qle_bool_iff, Hmin, Hc.
Qed.

Lemma overview_is_top_chains_of_five_witness :
  let chains := [chain_of "Base" 5; chain_of "Ethereum" 50; chain_of "Tron" 7] in
  map (fun e => (tc_rank e, tc_name e, tc_tvlRaw e / billion))
      (tc_chains (top_chains_output 5 0 All chains)) =
  map (fun e => (ov_rank e, ov_name e, ov_tvl e))
      (top5 (overview_output chains)).
Proof.
  intro chains.
  apply (@overview_is_top_chains_of_five 0 chains).
  intros c [<- | [<- | [<- | []]]]; discriminate.
Defined.

(** ** Entries of a comparison *)

Lemma toLowerCase_empty (s : string) :
  JS.toLowerCase s = EmptyString -> s = EmptyString.
Proof. destruct s; [reflexivity | discriminate]. Qed.

Lemma findIndex_at {A} (p : A -> bool) (pre post : list A) (x : A) :
  Forall (fun y => p y = false) pre -> p x = true ->
  JS.findIndex p (pre ++ x :: post) = Z.of_nat (List.length pre).
Proof.
  intros Hpre Hx. induction Hpre as [| y pre Hy _ IH]; simpl.
  - rewrite Hx. reflexivity.
  - rewrite Hy, IH.
    destruct (Z.of_nat (List.length pre) <? 0)%Z eqn:E;
      [apply Z.ltb_lt in E; lia | lia].
Qed.

Lemma descending_after {A} (key : A -> Q) (pre post : list A) (x : A) :
  descending key (pre ++ x :: post) ->
  Forall (fun y => key y <= key x) post.
Proof.
  unfold descending. induction pre as [| a pre IH]; simpl; intro H;
    inversion H; subst; [assumption | apply IH; assumption].
Qed.

Lemma nth_error_middle {A} (pre post : list A) (x : A) :
  nth_error (pre ++ x :: post) (List.length pre) = Some x.
Proof.
  rewrite nth_error_app2 by lia. rewrite Nat.sub_diag. reflexivity.
Qed.

(** What chain-compare reports for a name that is a chain.  The lookup
    runs on the array already sorted, so of the chains whose names equal
    the query after lowercasing it finds one of largest tvl, and the rank
    is the place of that very chain. *)
Lemma compare_one_found (allChains : list Chain)
  (stables : list StablecoinChain) (bridges : list Bridge) (n : string)
  (c : Chain) :
  let sorted := JS.sort (desc tvl) allChains in
  find_by_name name n sorted = Some c ->
  let e := compare_one sorted sorted stables bridges n in
  In c allChains /\ JS.toLowerCase (name c) = JS.toLowerCase n /\
  (forall c', In c' allChains ->
              JS.toLowerCase (name c') = JS.toLowerCase n -> tvl c' <= tvl c) /\
  cc_found e = true /\ cc_name e = name c /\
  cc_tvl e = Some (tvl c / billion) /\ cc_tvlRaw e == tvl c /\
  exists i,
    cc_rank e = Some (Z.of_nat i + 1)%Z /\ nth_error sorted i = Some c /\
    Forall (fun y => JS.toLowerCase (name y) <> JS.toLowerCase n)
           (firstn i sorted).
Proof.
  intros sorted Hc e.
  destruct (find_by_name_Some _ _ _ Hc) as [Hin Hlow].
  destruct (find_by_name_first _ _ _ Hc) as (pre & post & Hl & Hpre).
  assert (Hd : descending tvl (pre ++ c :: post)).
  { rewrite <- Hl. apply sort_descending. }
  split; [apply (sort_In (desc tvl)), Hin | split; [exact Hlow |]].
  split.
  { intros c' Hin' Hlow'. apply (sort_In (desc tvl)) in Hin'.
    fold sorted in Hin'. rewrite Hl in Hin'.
    apply in_app_or in Hin'. destruct Hin' as [Hp | [<- | Hp]].
    - exfalso. apply (Hpre c' Hp Hlow').
    - apply Qle_refl.
    - pose proof (descending_after _ _ _ Hd) as Ha.
      rewrite Forall_forall in Ha. apply Ha, Hp. }
  subst e. unfold compare_one. rewrite Hc.
  cbn [cc_found cc_name cc_tvl cc_tvlRaw cc_rank option_map].
  split; [reflexivity | split; [| split; [reflexivity | split]]].
  - destruct (String.eqb (name c) EmptyString) eqn:E; [| reflexivity].
    apply String.eqb_eq in E. rewrite E in *.
    symmetry in Hlow. apply toLowerCase_empty in Hlow. exact Hlow.
  - unfold JS.or0. destruct (Qeq_bool (tvl c) 0) eqn:E; [| reflexivity].
    apply Qeq_bool_eq in E. rewrite E. reflexivity.
  - exists (List.length pre). rewrite Hl.
    split; [| split; [apply nth_error_middle |]].
    + rewrite findIndex_at; [reflexivity | | apply String.eqb_refl].
      rewrite Forall_forall. intros y Hy. apply String.eqb_neq.
      intro F. apply (Hpre y Hy). rewrite F. exact Hlow.
    + rewrite firstn_app, Nat.sub_diag, firstn_all, app_nil_r.
      rewrite Forall_forall. exact Hpre.
Qed.

Lemma Forall2_map_r {A B} (P : A -> B -> Prop) (f : A -> B) (l : list A) :
  (forall x, In x l -> P x (f x)) -> Forall2 P l (map f l).
Proof.
  induction l as [| x l IH]; intro H; simpl; constructor.
  - apply H. left. reflexivity.
  - apply IH. intros y Hy. apply H. right. exact Hy.
Qed.

Lemma chain_compare_resolved (chainNames : list string)
  (allChains : list Chain) (stables : list StablecoinChain)
  (bridges : list Bridge) (out : CompareOutput) :
  chain_compare_output chainNames allChains stables bridges = Resolved out ->
  chainsCompared out = List.length chainNames /\
  comparison out =
    map (compare_one (JS.sort (desc tvl) allChains)
                     (JS.sort (desc tvl) allChains) stables bridges) chainNames.
Proof.
  unfold chain_compare_output.
  destruct (JS.reduce1 (greater cc_tvlRaw) _); [| discriminate].
  destruct (JS.reduce1 (greater cc_stablecoinsRaw) _); [| discriminate].
  intros [= <-]. split; reflexivity.
Qed.

(** X12.  chain-compare returns one entry per name asked, in the order
    asked.  An entry is marked found exactly when some fetched chain has
    that name up to case.  A found entry shows the name, tvl and rank of a
    chain of largest tvl among the chains with that name up to case, the
    rank being the place of that chain among all chains by descending tvl;
    an entry not found echoes the name asked, with no tvl and no rank. *)
Theorem chain_compare_entries_follow_the_names :
  forall chainNames allChains stables bridges out,
    chain_compare_output chainNames allChains stables bridges = Resolved out ->
    chainsCompared out = List.length chainNames /\
    Forall2
      (fun n e =>
         (cc_found e = true <->
          exists c, In c allChains /\
                    JS.toLowerCase (name c) = JS.toLowerCase n) /\
         (cc_found e = false ->
          cc_name e = n /\ cc_tvl e = None /\ cc_rank e = None /\
          cc_tvlRaw e = 0) /\
         (cc_found e = true ->
          exists c i,
            In c allChains /\ JS.toLowerCase (name c) = JS.toLowerCase n /\
            (forall c', In c' allChains ->
                        JS.toLowerCase (name c') = JS.toLowerCase n ->
                        tvl c' <= tvl c) /\
            cc_name e = name c /\ cc_tvl e = Some (tvl c / billion) /\
            cc_tvlRaw e == tvl c /\
            cc_rank e = Some (Z.of_nat i + 1)%Z /\
            nth_error (JS.sort (desc tvl) allChains) i = Some c))
      chainNames (comparison out).
Proof.
  intros chainNames allChains stables bridges out Hout.
  destruct (chain_compare_resolved _ _ _ _ Hout) as [Hn ->].
  split; [exact Hn |]. apply Forall2_map_r. intros n _.
  set (sorted := JS.sort (desc tvl) allChains).
  destruct (find_by_name name n sorted) as [c |] eqn:Hc.
  - destruct (compare_one_found allChains stables bridges n Hc)
      as (Hin & Hlow & Hmax & Hf & Hname & Htvl & Hraw & i & Hrank & Hnth & _).
    fold sorted in Hf, Hname, Htvl, Hraw, Hrank, Hnth.
    split; [| split].
    + split; [intros _; exists c; split; assumption | intros _; exact Hf].
    + rewrite Hf. discriminate.
    + intros _. exists c, i. repeat split; assumption.
  - destruct (@compare_one_missing sorted sorted stables bridges n Hc)
      as (Hname & Hf & Hraw).
    split; [| split].
    + rewrite Hf. split; [discriminate |].
      intros (c & Hin & Hlow). exfalso.
      rewrite find_by_name_None in Hc.
      apply (Hc c); [apply sort_In, Hin | exact Hlow].
    + intros _. unfold compare_one in *. rewrite Hc in *. cbn in *.
      repeat split.
    + rewrite Hf. discriminate.
Qed.

Lemma chain_compare_entries_follow_the_names_witness :
  exists out,
    chain_compare_output ["BASE"; "Atlantis"]%string
      [chain_of "Base" 5; chain_of "Ethereum" 50] [] [] = Resolved out /\
    chainsCompared out = 2%nat /\
    map cc_name (comparison out) = ["Base"; "Atlantis"]%string.
Proof.
  eexists. split; [reflexivity |].
  destruct (@chain_compare_entries_follow_the_names
              ["BASE"; "Atlantis"]%string
              [chain_of "Base" 5; chain_of "Ethereum" 50] [] [] _ eq_refl)
    as [Hn _].
  split; [exact Hn | reflexivity].
Defined.

(** ** Spelling of the names *)

Lemma compare_one_fold (allChains sorted : list Chain)
  (stables : list StablecoinChain) (bridges : list Bridge) (q1 q2 : string) :
  JS.toLowerCase q1 = JS.toLowerCase q2 ->
  let e1 := compare_one allChains sorted stables bridges q1 in
  let e2 := compare_one allChains sorted stables bridges q2 in
  same_figures e1 e2 /\ (cc_found e1 = true -> e1 = e2).
Proof.
  intros H e1 e2. subst e1 e2. unfold compare_one.
  rewrite (find_by_name_fold name q1 q2 allChains H).
  rewrite (find_by_name_fold s_name q1 q2 stables H).
  rewrite (filter_ext
             (fun b => existsb (fun c => same_name q1 c) (chains b))
             (fun b => existsb (fun c => same_name q2 c) (chains b)));
    [| intro b; induction (chains b) as [| x l IH]; simpl;
       [reflexivity | rewrite (same_name_fold _ _ H), IH; reflexivity]].
  split; [unfold same_figures; cbn; repeat split |].
  destruct (find_by_name name q2 allChains) as [c |] eqn:Hc; cbn;
    [intros _ | discriminate].
  destruct (String.eqb (name c) EmptyString) eqn:E; [| reflexivity].
  apply String.eqb_eq in E. apply find_by_name_Some in Hc.
  destruct Hc as [_ Hc]. rewrite E in Hc.
  symmetry in Hc. pose proof (toLowerCase_empty _ Hc) as ->.
  apply toLowerCase_empty in H. rewrite H. reflexivity.
Qed.

Lemma Forall2_map_map {A B} (R : A -> A -> Prop) (P : B -> B -> Prop)
  (f : A -> B) (l1 l2 : list A) :
  (forall x y, R x y -> P (f x) (f y)) ->
  Forall2 R l1 l2 -> Forall2 P (map f l1) (map f l2).
Proof.
  intros H. induction 1; simpl; constructor; auto.
Qed.

Lemma map_eq_Forall2 {A B} (f : A -> B) (l1 l2 : list A) :
  map f l1 = map f l2 -> Forall2 (fun x y => f x = f y) l1 l2.
Proof.
  revert l2. induction l1 as [| x l1 IH]; intros [| y l2] H; simpl in H;
    try discriminate; constructor.
  - injection H as H _. exact H.
  - apply IH. injection H as _ H. exact H.
Qed.

(** X13.  chain-compare does not depend on the case of the names asked: two
    lists of names that agree after lowercasing give entries with the same
    figures, position by position, and identical entries wherever the chain
    is found; only an entry not found shows the spelling it was asked
    with. *)
Theorem chain_compare_ignores_case :
  forall names1 names2 allChains stables bridges out1 out2,
    map JS.toLowerCase names1 = map JS.toLowerCase names2 ->
    chain_compare_output names1 allChains stables bridges = Resolved out1 ->
    chain_compare_output names2 allChains stables bridges = Resolved out2 ->
    Forall2 (fun e1 e2 => same_figures e1 e2 /\ (cc_found e1 = true -> e1 = e2))
            (comparison out1) (comparison out2).
Proof.
  intros names1 names2 allChains stables bridges out1 out2 Hn H1 H2.
  destruct (chain_compare_resolved _ _ _ _ H1) as [_ ->].
  destruct (chain_compare_resolved _ _ _ _ H2) as [_ ->].
  apply (@Forall2_map_map _ _
           (fun x y => JS.toLowerCase x = JS.toLowerCase y));
    [| apply (map_eq_Forall2 JS.toLowerCase), Hn].
  intros x y Hxy. apply compare_one_fold. exact Hxy.
Qed.

Lemma chain_compare_ignores_case_witness :
  exists out1 out2,
    chain_compare_output ["BASE"; "atlantis"]%string
      [chain_of "Base" 5; chain_of "Ethereum" 50] [] [] = Resolved out1 /\
    chain_compare_output ["base"; "Atlantis"]%string
      [chain_of "Base" 5; chain_of "Ethereum" 50] [] [] = Resolved out2 /\
    Forall2 (fun e1 e2 => same_figures e1 e2 /\ (cc_found e1 = true -> e1 = e2))
            (comparison out1) (comparison out2).
Proof.
  do 2 eexists. split; [reflexivity | split; [reflexivity |]].
  apply (@chain_compare_ignores_case
           ["BASE"; "atlantis"]%string ["base"; "Atlantis"]%string
           [chain_of "Base" 5; chain_of "Ethereum" 50] [] []);
    reflexivity.
Defined.

(** X14.  The output of chain-details depends on the query only through
    its lowercase form; so asking again with the name it returned for a
    chain gives the same output. *)
Theorem chain_details_accepts_the_name_it_returns :
  (forall q1 q2 chains stables,
      JS.toLowerCase q1 = JS.toLowerCase q2 ->
      chain_details_output q1 chains stables =
      chain_details_output q2 chains stables) /\
  (forall q chains stables info st,
      chain_details_output q chains stables = ChainDetails info st ->
      chain_details_output (cd_name info) chains stables = ChainDetails info st).
Proof.
  assert (Hfold : forall q1 q2 chains stables,
             JS.toLowerCase q1 = JS.toLowerCase q2 ->
             chain_details_output q1 chains stables =
             chain_details_output q2 chains stables).
  { intros q1 q2 chains stables H. unfold chain_details_output.
    rewrite (find_by_name_fold name q1 q2 chains H).
    rewrite (find_by_name_fold s_name q1 q2 stables H). reflexivity. }
  split; [exact Hfold |].
  intros q chains stables info st Hout.
  rewrite <- Hout. apply Hfold.
  unfold chain_details_output in Hout.
  destruct (find_by_name name q chains) as [c |] eqn:Hc; [| discriminate].
  injection Hout as <- _. cbn [cd_name].
  apply (find_by_name_Some _ _ _ Hc).
Qed.

Lemma chain_details_accepts_the_name_it_returns_witness :
  let chains := [chain_of "Base" 5; chain_of "Ethereum" 50] in
  exists info st,
    chain_details_output "ETHEREUM" chains [] = ChainDetails info st /\
    cd_name info = "Ethereum"%string /\
    chain_details_output "Ethereum" chains [] = ChainDetails info st.
Proof.
  intro chains. do 2 eexists. split; [reflexivity |]. split; [reflexivity |].
  exact (proj2 chain_details_accepts_the_name_it_returns
           "ETHEREUM"%string chains [] _ _ eq_refl).
Defined.

(** ** Successful fetches *)

Lemma fetch_json_body {T} (e : Endpoint) (feed : list (Response (list T))) :
  feed_fails feed = false ->
  fetch_json e feed = (Resolved (first_body feed), tl feed).
Proof.
  destruct feed as [| res rest]; simpl; [discriminate |].
  rewrite negb_false_iff. intros ->. reflexivity.
Qed.

Lemma answer_rejects_only_empty_compare (q : Query) (chains : list Chain)
  (stables : list StablecoinChain) (bridges : list Bridge) (msg : string) :
  answer q chains stables bridges = Rejected msg ->
  q = chain_compare_q [] /\ msg = empty_reduce.
Proof.
  destruct q as [| | | | | names]; simpl; try discriminate.
  destruct names as [| n names]; simpl.
  - intros [= <-]. split; reflexivity.
  - unfold chain_compare_output. simpl. discriminate.
Qed.

(** X15.  When every fetch a handler needs succeeds, the handler settles
    with what it computes from the fetched bodies, whatever the order in
    which the fetches settle, after exactly one request to each endpoint
    it needs and none to the others.  That result is an output record in
    every case but one: chain-compare with an empty list of names, where
    the [reduce] of an empty array raises. *)
Theorem successful_fetches_give_the_answer :
  forall settle q w,
    (forall e, In e (required q) -> fails e w = false) ->
    handle settle q w =
      (answer q (first_body (chainsFeed w)) (first_body (stablesFeed w))
                (first_body (bridgesFeed w)),
       one_request_each q w) /\
    (q <> chain_compare_q [] ->
     exists out, fst (handle settle q w) = Resolved out) /\
    (q = chain_compare_q [] ->
     fst (handle settle q w) = Rejected empty_reduce).
Proof.
  intros settle q w Hok.
  assert (Heq : handle settle q w =
                (answer q (first_body (chainsFeed w)) (first_body (stablesFeed w))
                          (first_body (bridgesFeed w)),
                 one_request_each q w)).
  { destruct q; cbn [required] in Hok;
      unfold handle, wrap, one_request_each,
        overview, chain_details, top_chains, stablecoin_flows, bridge_volume,
        chain_compare, fetchChains, fetchStablecoins, fetchBridges;
      cbn [uses required existsb orb];
      repeat match goal with
        | |- context [fetch_json ChainsApi (chainsFeed w)] =>
            rewrite (@fetch_json_body _ ChainsApi (chainsFeed w))
              by (apply (Hok ChainsApi); cbn; tauto)
        | |- context [fetch_json StablecoinsApi (stablesFeed w)] =>
            rewrite (@fetch_json_body _ StablecoinsApi (stablesFeed w))
              by (apply (Hok StablecoinsApi); cbn; tauto)
        | |- context [fetch_json BridgesApi (bridgesFeed w)] =>
            rewrite (@fetch_json_body _ BridgesApi (bridgesFeed w))
              by (apply (Hok BridgesApi); cbn; tauto)
        | _ => progress cbn [chainsFeed stablesFeed bridgesFeed fst snd]
        end;
      reflexivity. }
  split; [exact Heq | split].
  - intro Hq. rewrite Heq. cbn [fst].
    destruct (answer q _ _ _) as [out | msg] eqn:Ha; [exists out; reflexivity |].
    apply answer_rejects_only_empty_compare in Ha. destruct Ha as [Ha _].
    contradiction.
  - intros ->. rewrite Heq. reflexivity.
Qed.

Lemma successful_fetches_give_the_answer_witness :
  let w := world_of [chain_of "Ethereum" 50; chain_of "Base" 5]
                    [stable_of "Ethereum" (Some 7)] [] in
  let q := chain_compare_q ["Ethereum"; "Base"]%string in
  exists out,
    fst (handle [1; 2; 0]%nat q w) = Resolved out /\
    snd (handle [1; 2; 0]%nat q w) = mkWorld [] [] [].
Proof.
  intros w q.
  destruct (@successful_fetches_give_the_answer [1; 2; 0]%nat q w)
    as (Heq & Hres & _).
  - intros e _. destruct e; reflexivity.
  - destruct (Hres ltac:(discriminate)) as [out Hout].
    exists out. split; [exact Hout |]. rewrite Heq. reflexivity.
Defined.

(** ** Winners that were found *)

Lemma chain_compare_winner (chainNames : list string)
  (allChains : list Chain) (stables : list StablecoinChain)
  (bridges : list Bridge) (out : CompareOutput) :
  chain_compare_output chainNames allChains stables bridges = Resolved out ->
  exists wt,
    JS.reduce1 (greater cc_tvlRaw) (comparison out) = Some wt /\
    highestTVL (winners out) = cc_name wt.
Proof.
  unfold chain_compare_output.
  destruct (JS.reduce1 (greater cc_tvlRaw) _) as [wt |] eqn:Ht; [| discriminate].
  destruct (JS.reduce1 (greater cc_stablecoinsRaw) _); [| discriminate].
  intros [= <-]. exists wt. split; [exact Ht | reflexivity].
Qed.

(** X16.  If one of the names compared is a chain with positive tvl, then
    [highestTVL] is the name of an entry that was found, and no entry has
    a larger [tvlRaw] than it: a name that is not a chain does not win. *)
Theorem highest_tvl_is_a_found_chain :
  forall chainNames allChains stables bridges out n c,
    chain_compare_output chainNames allChains stables bridges = Resolved out ->
    In n chainNames -> In c allChains ->
    JS.toLowerCase (name c) = JS.toLowerCase n -> 0 < tvl c ->
    exists e,
      In e (comparison out) /\ highestTVL (winners out) = cc_name e /\
      cc_found e = true /\ 0 < cc_tvlRaw e /\
      forall e', In e' (comparison out) -> cc_tvlRaw e' <= cc_tvlRaw e.
Proof.
  intros chainNames allChains stables bridges out n c Hout Hn Hc Hlow Hpos.
  destruct (chain_compare_winner _ _ _ _ Hout) as (wt & Hwt & Hname).
  destruct (chain_compare_resolved _ _ _ _ Hout) as [_ Hcmp].
  set (sorted := JS.sort (desc tvl) allChains) in *.
  assert (Hne : comparison out <> []).
  { intro E. rewrite E in Hwt. discriminate. }
  destruct (reduce1_greater cc_tvlRaw Hne)
    as (w' & pre & post & Hw' & Hl & Hpre & Hpost).
  rewrite Hwt in Hw'. injection Hw' as <-.
  assert (Hmax : forall e', In e' (comparison out) -> cc_tvlRaw e' <= cc_tvlRaw wt).
  { intros e' He'. rewrite Hl in He'. rewrite Forall_forall in Hpre, Hpost.
    apply in_app_or in He'. destruct He' as [H | [<- | H]].
    - apply Hpre, H.
    - apply Qle_refl.
    - apply Qlt_le_weak, Hpost, H. }
  assert (Hentry : 0 < cc_tvlRaw (compare_one sorted sorted stables bridges n)).
  { destruct (find_by_name name n sorted) as [c0 |] eqn:E0.
    - destruct (compare_one_found allChains stables bridges n E0)
        as (_ & _ & Hbig & _ & _ & _ & Hraw & _).
      fold sorted in Hraw. rewrite Hraw.
      apply Qlt_le_trans with (tvl c); [exact Hpos | apply Hbig; assumption].
    - exfalso. rewrite find_by_name_None in E0.
      apply (E0 c); [apply sort_In, Hc | exact Hlow]. }
  assert (Hwin : 0 < cc_tvlRaw wt).
  { eapply Qlt_le_trans; [exact Hentry |].
    apply Hmax. rewrite Hcmp. apply in_map, Hn. }
  assert (Hin : In wt (comparison out)).
  { rewrite Hl. apply in_or_app. right. left. reflexivity. }
  exists wt. repeat split; try assumption.
  destruct (cc_found wt) eqn:F; [reflexivity |].
  rewrite Hcmp in Hin. apply in_map_iff in Hin. destruct Hin as (m & <- & _).
  apply compare_one_found_or_zero in F. rewrite F in Hwin.
  exfalso. revert Hwin. apply Qlt_irrefl.
Qed.

Lemma highest_tvl_is_a_found_chain_witness :
  exists out e,
    chain_compare_output ["Atlantis"; "base"]%string
      [chain_of "Base" 5; chain_of "Ethereum" 50] [] [] = Resolved out /\
    In e (comparison out) /\ highestTVL (winners out) = cc_name e /\
    cc_found e = true.
Proof.
  eexists.
  destruct (@highest_tvl_is_a_found_chain
              ["Atlantis"; "base"]%string
              [chain_of "Base" 5; chain_of "Ethereum" 50] [] [] _
              "base"%string (chain_of "Base" 5) eq_refl)
    as (e & Hin & Hname & Hfound & _).
  - right. left. reflexivity.
  - left. reflexivity.
  - reflexivity.
  - reflexivity.
  - exists e. split; [reflexivity |]. repeat split; assumption.
Defined.

(** ** chain-details and chain-compare on one chain *)

(** X17.  On the same fetched data, for a name that chain-details finds,
    the entry chain-compare builds for that name is found, shows a tvl at
    least as large and a rank at least as good, and carries the same
    stablecoin figure, which is null there exactly when chain-details shows
    none or a zero.  The two handlers can differ because chain-details
    looks the name up before sorting and chain-compare after; when no two
    chains share a name up to case they show the same name, tvl and rank. *)
Theorem chain_compare_agrees_with_chain_details :
  forall q chainNames chains stables bridges info st out,
    chain_details_output q chains stables = ChainDetails info st ->
    chain_compare_output chainNames chains stables bridges = Resolved out ->
    In q chainNames ->
    exists e r,
      In e (comparison out) /\ cc_found e = true /\
      cd_tvlRaw info <= cc_tvlRaw e /\
      cc_rank e = Some r /\ (1 <= r <= cd_rank info)%Z /\
      cc_stablecoinsRaw e =
        match st with Some f => totalUSDRaw f | None => 0 end /\
      (cc_stablecoins e = None <->
       match st with Some f => totalUSDRaw f == 0 | None => True end) /\
      (NoDup (map (fun c => JS.toLowerCase (name c)) chains) ->
       cc_name e = cd_name info /\ cc_tvlRaw e == cd_tvlRaw info /\
       r = cd_rank info).
Proof.
  intros q chainNames chains stables bridges info st out Hd Hout Hq.
  destruct (chain_compare_resolved _ _ _ _ Hout) as [_ Hcmp].
  set (sorted := JS.sort (desc tvl) chains) in *.
  unfold chain_details_output in Hd.
  destruct (find_by_name name q chains) as [c |] eqn:Hc; [| discriminate].
  destruct (@details_rank_position q chains c Hc)
    as (i & c' & Hi & Hc' & Hname & Hpre).
  fold sorted in Hd, Hi, Hc', Hpre. rewrite Hi in Hd.
  injection Hd as <- <-. cbn [cd_tvlRaw cd_rank cd_name].
  destruct (find_by_name_Some _ _ _ Hc) as [Hin Hlow].
  destruct (find_by_name name q sorted) as [c2 |] eqn:Hc2.
  2:{ exfalso. rewrite find_by_name_None in Hc2.
      apply (Hc2 c); [apply sort_In, Hin | exact Hlow]. }
  destruct (compare_one_found chains stables bridges q Hc2)
    as (Hin2 & Hlow2 & Hmax & Hf & Hn2 & _ & Hraw & j & Hrank & Hnth & Hbefore).
  fold sorted in Hf, Hn2, Hraw, Hrank, Hnth, Hbefore.
  set (e := compare_one sorted sorted stables bridges q) in *.
  assert (Hji : (j <= i)%nat).
  { destruct (Nat.le_gt_cases j i) as [H | H]; [exact H | exfalso].
    rewrite Forall_forall in Hbefore. apply (Hbefore c').
    - apply nth_error_In with (n := i). rewrite nth_error_firstn.
      apply Nat.ltb_lt in H. rewrite H. exact Hc'.
    - rewrite Hname. exact Hlow. }
  exists e, (Z.of_nat j + 1)%Z.
  split; [rewrite Hcmp; apply in_map, Hq |].
  split; [exact Hf |].
  split; [rewrite Hraw; apply Hmax; assumption |].
  split; [exact Hrank |]. split; [lia |].
  split; [| split].
  - subst e. unfold compare_one. cbn [cc_stablecoinsRaw].
    destruct (find_by_name s_name q stables); reflexivity.
  - subst e. unfold compare_one. cbn [cc_stablecoins].
    destruct (find_by_name s_name q stables) as [s |]; [| tauto].
    cbn [totalUSDRaw]. unfold JS.or0.
    destruct (peggedUSD s) as [v |]; [| split; reflexivity].
    destruct (Qeq_bool v 0) eqn:E.
    + split; reflexivity.
    + split; [discriminate |]. intro H. apply Qeq_bool_neq in E. contradiction.
  - intro Hnd.
    assert (Hsame : c2 = c).
    { apply (@NoDup_map_injective _ _ (fun x => JS.toLowerCase (name x)) chains);
        [exact Hnd | exact Hin2 | exact Hin |].
      cbv beta. rewrite Hlow, Hlow2. reflexivity. }
    subst c2.
    assert (Hij : (i <= j)%nat).
    { destruct (Nat.le_gt_cases i j) as [H | H]; [exact H | exfalso].
      rewrite Forall_forall in Hpre. apply (Hpre c); [| reflexivity].
      apply nth_error_In with (n := j). rewrite nth_error_firstn.
      apply Nat.ltb_lt in H. rewrite H. exact Hnth. }
    split; [exact Hn2 | split; [exact Hraw | lia]].
Qed.

Lemma chain_compare_agrees_with_chain_details_witness :
  let chains := [chain_of "Base" 5; chain_of "Ethereum" 50; chain_of "Tron" 7] in
  exists info st out e,
    chain_details_output "tron" chains [] = ChainDetails info st /\
    chain_compare_output ["Tron"; "tron"]%string chains [] [] = Resolved out /\
    In e (comparison out) /\ cc_name e = cd_name info /\
    cc_rank e = Some (cd_rank info).
Proof.
  intro chains. do 3 eexists.
  destruct (@chain_compare_agrees_with_chain_details
              "tron"%string ["Tron"; "tron"]%string chains [] [] _ _ _
              eq_refl eq_refl (or_intror (or_introl eq_refl)))
    as (e & r & Hin & _ & _ & Hrank & _ & _ & _ & Huniq).
  destruct Huniq as (Hname & _ & Hr).
  { vm_compute. repeat constructor; simpl; intuition discriminate. }
  exists e. split; [reflexivity | split; [reflexivity |]].
  split; [exact Hin | split; [exact Hname |]].
  rewrite Hrank, Hr. reflexivity.
Defined.
